(** * Collection: an insertion-ordered keyed container with cached views

    A shallow embedding of [src/index.ts] (class [Collection<K, V> extends
    Map<K, V>]) together with the properties of its cache handling, its
    combinators and its set-like operations.

    Conventions of the embedding.
    - A JavaScript [Map] is an association list in insertion order; the
      well-formed ones have pairwise distinct keys ([wf]).
    - An object of the class is a record of its three slots: the entries of
      the underlying [Map] and the two private cache fields.
    - A method that mutates [this] returns the new state of the object
      (paired with the returned value when there is one).  Where object
      identity matters ([clone], [concat], [equals], [sort]) a store of
      objects indexed by references is used, see [Module Heap].
    - [undefined] and [null] are [None].
    - [Math.random()] is an explicit stream of rationals. *)

From Stdlib Require Import QArith Qround.
From stdpp Require Import gmap strings list sorting.

Local Open Scope Z_scope.
Local Open Scope nat_scope.

(** ** Built-ins of the language *)

(** [Map.prototype]: the methods reached through [super]. *)
Module JSMap.
Section jsmap.
Context {K V : Type} `{!EqDecision K}.

Fixpoint has (k : K) (m : list (K * V)) : bool :=
  match m with
  | [] => false
  | (k', _) :: m' => if decide (k = k') then true else has k m'
  end.

Fixpoint get (k : K) (m : list (K * V)) : option V :=
  match m with
  | [] => None
  | (k', v) :: m' => if decide (k = k') then Some v else get k m'
  end.

(** An existing key keeps its position, a new key goes to the end. *)
Fixpoint set (k : K) (v : V) (m : list (K * V)) : list (K * V) :=
  match m with
  | [] => [(k, v)]
  | (k', v') :: m' =>
      if decide (k = k') then (k', v) :: m' else (k', v') :: set k v m'
  end.

Fixpoint delete (k : K) (m : list (K * V)) : list (K * V) :=
  match m with
  | [] => []
  | (k', v') :: m' =>
      if decide (k = k') then m' else (k', v') :: delete k m'
  end.

Definition clear (m : list (K * V)) : list (K * V) := [].

(** The [Map] constructor adds the pairs of its argument one by one. *)
Definition from_entries (es : list (K * V)) : list (K * V) :=
  fold_left (λ m e, set e.1 e.2 m) es [].
End jsmap.
End JSMap.

(** [Array.prototype] and [Math]. *)
Section jsarray.
Context {A : Type}.

(** [arr[i]] for an integral number [i]. *)
Definition Array_at (arr : list A) (i : Z) : option A :=
  if (i <? 0)%Z then None else arr !! Z.to_nat i.

(** [arr.splice(start, 1)]: the removed elements and what is left of
    [arr].  A negative [start] counts from the end. *)
Definition Array_splice1 (start : Z) (arr : list A) : list A * list A :=
  let len := Z.of_nat (length arr) in
  let actualStart :=
    Z.to_nat (if (start <? 0)%Z then Z.max (len + start) 0
              else Z.min start len) in
  (take 1 (drop actualStart arr),
   take actualStart arr ++ drop (actualStart + 1) arr).

(** [arr.sort(cmp)].  The sort of the language is stable; for a
    comparator that is a consistent ordering its result is the one
    computed here, by insertion from the right: an element moves behind
    exactly the elements it is greater than. *)
Fixpoint Array_sort_insert (cmp : A → A → Z) (x : A) (l : list A) : list A :=
  match l with
  | [] => [x]
  | y :: l' =>
      if (0 <? cmp x y)%Z then y :: Array_sort_insert cmp x l'
      else x :: y :: l'
  end.

Definition Array_sort (cmp : A → A → Z) (l : list A) : list A :=
  foldr (Array_sort_insert cmp) [] l.
End jsarray.

Definition Math_floor (q : Q) : Z := Qfloor q.

(** The index expression [Math.floor(Math.random() * arr.length)], for the
    value [r] returned by [Math.random()]. *)
Definition random_index (r : Q) (len : nat) : Z :=
  Math_floor (r * inject_Z (Z.of_nat len)).

(** [Number(b)] for a boolean. *)
Definition Number_of_bool (b : bool) : Z := if b then 1%Z else 0%Z.

(** Errors thrown by the class. *)
Inductive Error := TypeError (message : string).

(** A value of type [T | T[]] or [T | T[] | undefined]. *)
Inductive OneOrMany (A : Type) :=
  | One (x : option A)
  | Many (xs : list (option A)).
Arguments One {A} x.
Arguments Many {A} xs.

(** ** The class *)

(** The operator [>] of the language on the values of a type. *)
Class JSGreater (V : Type) := js_gt : V → V → bool.
#[export] Instance Z_JSGreater : JSGreater Z := Z.gtb.

(** [>] as a strict total order: what it is on the numbers other than
    [NaN] and on the strings. *)
Class JSGreaterOrder (V : Type) `{!JSGreater V} : Prop := {
  js_gt_irrefl : ∀ x : V, js_gt x x = false;
  js_gt_trans : ∀ x y z : V, js_gt x y = true → js_gt y z = true → js_gt x z = true;
  js_gt_total : ∀ x y : V, x = y ∨ js_gt x y = true ∨ js_gt y x = true
}.

Section collection.
Context {K V : Type} `{!EqDecision K, !EqDecision V}.

Record Collection := mkCollection {
  entries : list (K * V);
  _array : option (list V);
  _keyArray : option (list K)
}.

Definition size (c : Collection) : nat := length (entries c).
(** The iterators [this.values()] and [this.keys()], read to the end. *)
Definition values (c : Collection) : list V := (entries c).*2.
Definition keys (c : Collection) : list K := (entries c).*1.

(** [new Collection(entries)]: [super(entries)] adds through the
    overridden [set]; both caches are then defined as [null]. *)
Definition new (es : option (list (K * V))) : Collection :=
  mkCollection (JSMap.from_entries (default [] es)) None None.

Definition get (k : K) (c : Collection) : option V := JSMap.get k (entries c).

Definition set (k : K) (v : V) (c : Collection) : Collection :=
  mkCollection (JSMap.set k v (entries c)) None None.

Definition has (k : K) (c : Collection) : bool := JSMap.has k (entries c).

Definition delete (k : K) (c : Collection) : bool * Collection :=
  (JSMap.has k (entries c),
   mkCollection (JSMap.delete k (entries c)) None None).

Definition clear (c : Collection) : Collection :=
  mkCollection (JSMap.clear (entries c)) (_array c) (_keyArray c).

(** [this._array?.length !== this.size] *)
Definition array_stale (c : Collection) : bool :=
  match _array c with
  | Some a => negb (bool_decide (length a = size c))
  | None => true
  end.

Definition array (c : Collection) : list V * Collection :=
  if array_stale c
  then (values c, mkCollection (entries c) (Some (values c)) (_keyArray c))
  else (default [] (_array c), c).

Definition keyArray_stale (c : Collection) : bool :=
  match _keyArray c with
  | Some a => negb (bool_decide (length a = size c))
  | None => true
  end.

Definition keyArray (c : Collection) : list K * Collection :=
  if keyArray_stale c
  then (keys c, mkCollection (entries c) (_array c) (Some (keys c)))
  else (default [] (_keyArray c), c).

(** [Array.from({ length: n }, () => arr.splice(floor(random * arr.length), 1)[0])]
    where the calls of [Math.random()] return [rnd i], [rnd (i + 1)], ... *)
Fixpoint sample {A} (n : nat) (rnd : nat → Q) (i : nat) (arr : list A)
    : list (option A) :=
  match n with
  | 0 => []
  | S n' =>
      let '(removed, arr') :=
        Array_splice1 (random_index (rnd i) (length arr)) arr in
      head removed :: sample n' rnd (S i) arr'
  end.

(** [!arr.length || !amount] then [Array.from({ length: Math.min(amount,
    arr.length) }, ...)] over the copy [arr.slice()]. *)
Definition sample_amount {A} (amount : Z) (rnd : nat → Q) (arr : list A)
    : list (option A) :=
  if bool_decide (length arr = 0) || bool_decide (amount = 0%Z) then []
  else sample (Z.to_nat (Z.min amount (Z.of_nat (length arr)))) rnd 0 arr.

Definition random (amount : option Z) (rnd : nat → Q) (c : Collection)
    : OneOrMany V * Collection :=
  let '(arr, c') := array c in
  match amount with
  | None => (One (Array_at arr (random_index (rnd 0) (length arr))), c')
  | Some amount => (Many (sample_amount amount rnd arr), c')
  end.

Definition randomKey (amount : option Z) (rnd : nat → Q) (c : Collection)
    : OneOrMany K * Collection :=
  let '(arr, c') := keyArray c in
  match amount with
  | None => (One (Array_at arr (random_index (rnd 0) (length arr))), c')
  | Some amount => (Many (sample_amount amount rnd arr), c')
  end.

(** [sweep]: the loop runs over the live [Map]; it deletes nothing but
    the entry it is visiting, so it visits the entries the receiver had
    at the call, and [fn] sees the receiver as it is at each visit. *)
Definition sweep (fn : V → K → Collection → bool) (c : Collection)
    : nat * Collection :=
  let previousSize := size c in
  let c' :=
    fold_left (λ this e, if fn e.2 e.1 this then (delete e.1 this).2 else this)
              (entries c) c in
  (previousSize - size c', c').

Definition filter (fn : V → K → Collection → bool) (c : Collection)
    : Collection :=
  fold_left (λ results e, if fn e.2 e.1 c then set e.1 e.2 results else results)
            (entries c) (new None).

(** [reduce]: the state of the second loop is the accumulator, which is
    unset exactly while [first] is true.  [as_T] is the cast
    [(val as unknown) as T], the identity at run time. *)
Definition reduce {T} (as_T : V → T) (fn : T → V → K → Collection → T)
    (initialValue : option T) (c : Collection) : Error + T :=
  match initialValue with
  | Some initialValue =>
      inr (fold_left (λ accumulator e, fn accumulator e.2 e.1 c)
                     (entries c) initialValue)
  | None =>
      match
        fold_left (λ accumulator e,
                     match accumulator with
                     | None => Some (as_T e.2)
                     | Some acc => Some (fn acc e.2 e.1 c)
                     end)
                  (entries c) None
      with
      | None => inl (TypeError "Reduce of empty collection with no initial value")
      | Some accumulator => inr accumulator
      end
  end.

(** [clone]: a new object built by the constructor from the receiver's
    entries. *)
Definition clone (c : Collection) : Collection := new (Some (entries c)).

Definition concat (c : Collection) (collections : list Collection)
    : Collection :=
  fold_left (λ newColl coll,
               fold_left (λ newColl e, set e.1 e.2 newColl) (entries coll) newColl)
            collections (clone c).

(** [equals] behind its two tests on the argument itself (whether it is
    there and whether it is the receiver), for which see [Heap.equals]. *)
Definition equals_entries (c collection : Collection) : bool :=
  if negb (bool_decide (size c = size collection)) then false
  else forallb (λ e, negb (negb (has e.1 collection)
                           || negb (bool_decide (Some e.2 = get e.1 collection))))
               (entries c).

(** A new object, or one just mutated, has no cached view. *)
Definition uncached (c : Collection) : Prop :=
  _array c = None ∧ _keyArray c = None.

(** What [equals] establishes: same size, and every entry of the
    receiver is found in the argument under its key. *)
Definition same_entries (c o : Collection) : Prop :=
  size c = size o ∧ ∀ k v, (k, v) ∈ entries c → get k o = Some v.

(** The default comparator of [sort], [Number(x > y) || Number(x === y) - 1],
    over the [>] of the values. *)
Definition defaultCompare `{!JSGreater V} (x y : V) : Z :=
  let a := Number_of_bool (js_gt x y) in
  if bool_decide (a ≠ 0%Z) then a
  else (Number_of_bool (bool_decide (x = y)) - 1)%Z.

(** [sort] with its comparator given; [super.clear()] and [super.set]
    bypass the overridden methods, the caches are reset by hand. *)
Definition sort_by (compareFunction : V → V → K → K → Z) (c : Collection)
    : Collection :=
  let entries' :=
    Array_sort (λ a b, compareFunction a.2 b.2 a.1 b.1) (entries c) in
  mkCollection (fold_left (λ m e, JSMap.set e.1 e.2 m) entries' (JSMap.clear (entries c)))
               None None.

(** [sort(compareFunction = default)] *)
Definition sort `{!JSGreater V} (compareFunction : option (V → V → K → K → Z))
    (c : Collection) : Collection :=
  sort_by (default (λ x y _ _, defaultCompare x y) compareFunction) c.

(** Ascending: the earlier value is not greater than the later one. *)
Definition ascending `{!JSGreater V} (e1 e2 : K * V) : Prop :=
  js_gt e1.2 e2.2 = false.

Definition intersect (c other : Collection) : Collection :=
  filter (λ _ k _, has k c) other.

Definition difference (c other : Collection) : Collection :=
  concat (filter (λ _ k _, negb (has k c)) other)
         [filter (λ _ k _, negb (has k other)) c].

(** Keys are pairwise distinct: what every [Map] satisfies. *)
Definition wf (c : Collection) : Prop := NoDup (keys c).

(** A cache whose length is the size holds the current view.  The
    methods keep this true, which is what lets [array] and [keyArray]
    test nothing but the length. *)
Definition cache_ok (c : Collection) : Prop :=
  (∀ a, _array c = Some a → length a = size c → a = values c) ∧
  (∀ a, _keyArray c = Some a → length a = size c → a = keys c).
End collection.

Arguments Collection : clear implicits.

(** ** Sequences of operations on one object *)

Section operations.
Context {K V : Type} `{!EqDecision K, !EqDecision V, !JSGreater V}.

Inductive Op :=
  | OpSet (k : K) (v : V)
  | OpDelete (k : K)
  | OpClear
  | OpSweep (fn : V → K → Collection K V → bool)
  | OpSort (compareFunction : option (V → V → K → K → Z))
  | OpArray
  | OpKeyArray
  | OpRandom (amount : option Z) (rnd : nat → Q)
  | OpRandomKey (amount : option Z) (rnd : nat → Q).

(** The state of the receiver after the call. *)
Definition step (c : Collection K V) (op : Op) : Collection K V :=
  match op with
  | OpSet k v => set k v c
  | OpDelete k => (delete k c).2
  | OpClear => clear c
  | OpSweep fn => (sweep fn c).2
  | OpSort compareFunction => sort compareFunction c
  | OpArray => (array c).2
  | OpKeyArray => (keyArray c).2
  | OpRandom amount rnd => (random amount rnd c).2
  | OpRandomKey amount rnd => (randomKey amount rnd c).2
  end.

Definition run (ops : list Op) (c : Collection K V) : Collection K V :=
  fold_left step ops c.

End operations.

Arguments Op : clear implicits.

(** ** Objects and references

    The store maps references to the states of the objects allocated so
    far.  [new] allocates at a reference that is not in use; the methods
    that mutate [this] update the store at the receiver.  A method applied
    to a reference that was never allocated has no result ([None]); this
    does not happen in the language. *)
Module Heap.
Section heap.
Context {K V : Type} `{!EqDecision K, !EqDecision V}.
Local Abbreviation heap := (gmap nat (Collection K V)).

Definition alloc (h : heap) (c : Collection K V) : nat * heap :=
  let r := fresh (dom h) in (r, <[r := c]> h).

(** A call of one of the operations of [Op] on the object at [this]:
    the object is updated in place, no other object is touched. *)
Definition step `{!JSGreater V} (h : heap) (this : nat) (op : Op K V)
    : option heap :=
  c ← h !! this; Some (<[this := step c op]> h).

(** [sort] returns its receiver. *)
Definition sort `{!JSGreater V} (h : heap) (this : nat)
    (compareFunction : option (V → V → K → K → Z)) : option (nat * heap) :=
  h' ← step h this (OpSort compareFunction); Some (this, h').

Definition clone (h : heap) (this : nat) : option (nat * heap) :=
  c ← h !! this; Some (alloc h (clone c)).

(** [concat]: the clone is a new object, so no argument is the clone
    and its final state is the one [concat] computes from the states of
    the receiver and of the arguments. *)
Definition concat (h : heap) (this : nat) (collections : list nat)
    : option (nat * heap) :=
  c ← h !! this;
  cs ← mapM (λ r, h !! r) collections;
  Some (alloc h (concat c cs)).

(** [equals]: [null] and [undefined] are [None]. *)
Definition equals (h : heap) (this : nat) (collection : option nat)
    : option bool :=
  match collection with
  | None => Some false
  | Some collection =>
      if decide (this = collection) then
        c ← h !! this; Some true
      else
        c ← h !! this;
        o ← h !! collection;
        Some (equals_entries c o)
  end.
End heap.
End Heap.

(** ** The rest of the class *)

(** [arr.slice(start)]: a negative [start] counts from the end. *)
Definition Array_slice_from {A} (start : Z) (arr : list A) : list A :=
  let len := Z.of_nat (length arr) in
  drop (Z.to_nat (if (start <? 0)%Z then Z.max (len + start) 0
                  else Z.min start len)) arr.

(** [Array.from({ length: n }, () => iter.next().value)] for an iterator
    over [l]: the call number [i] yields the element number [i], and
    [undefined] once the iterator is exhausted. *)
Definition Array_from_iter {A} (n : Z) (l : list A) : list (option A) :=
  (λ i, l !! i) <$> seq 0 (Z.to_nat n).

Section collection_reads.
Context {K V : Type} `{!EqDecision K, !EqDecision V}.
Implicit Types c : Collection K V.

(** [first(amount)] behind its tests on [amount]:
    [amount = Math.min(this.size, amount)], then [Array.from] over
    [this.values()]. *)
Definition first_amount (amount : Z) c : list (option V) :=
  Array_from_iter (Z.min (Z.of_nat (size c)) amount) (values c).

Definition firstKey_amount (amount : Z) c : list (option K) :=
  Array_from_iter (Z.min (Z.of_nat (size c)) amount) (keys c).

(** [last]: the call [this.first(amount * -1)] is made with a positive
    number, for which [first] is [first_amount]. *)
Definition last (amount : option Z) c : OneOrMany V * Collection K V :=
  let '(arr, c') := array c in
  match amount with
  | None => (One (Array_at arr (Z.of_nat (length arr) - 1)), c')
  | Some amount =>
      if (amount <? 0)%Z then (Many (first_amount (amount * -1) c'), c')
      else if bool_decide (amount = 0%Z) then (Many [], c')
      else (Many (Some <$> Array_slice_from (- amount) arr), c')
  end.

Definition first (amount : option Z) c : OneOrMany V * Collection K V :=
  match amount with
  | None => (One (head (values c)), c)
  | Some amount =>
      if (amount <? 0)%Z then last (Some (amount * -1)%Z) c
      else (Many (first_amount amount c), c)
  end.

Definition lastKey (amount : option Z) c : OneOrMany K * Collection K V :=
  let '(arr, c') := keyArray c in
  match amount with
  | None => (One (Array_at arr (Z.of_nat (length arr) - 1)), c')
  | Some amount =>
      if (amount <? 0)%Z then (Many (firstKey_amount (amount * -1) c'), c')
      else if bool_decide (amount = 0%Z) then (Many [], c')
      else (Many (Some <$> Array_slice_from (- amount) arr), c')
  end.

Definition firstKey (amount : option Z) c : OneOrMany K * Collection K V :=
  match amount with
  | None => (One (head (keys c)), c)
  | Some amount =>
      if (amount <? 0)%Z then lastKey (Some (amount * -1)%Z) c
      else (Many (firstKey_amount amount c), c)
  end.

(** The loops that return at the first entry [fn] accepts. *)
Definition find (fn : V → K → Collection K V → bool) c : option V :=
  snd <$> List.find (λ e, fn e.2 e.1 c) (entries c).

Definition findKey (fn : V → K → Collection K V → bool) c : option K :=
  fst <$> List.find (λ e, fn e.2 e.1 c) (entries c).

Definition some (fn : V → K → Collection K V → bool) c : bool :=
  existsb (λ e, fn e.2 e.1 c) (entries c).

Definition every (fn : V → K → Collection K V → bool) c : bool :=
  forallb (λ e, fn e.2 e.1 c) (entries c).

Definition partition (fn : V → K → Collection K V → bool) c
    : Collection K V * Collection K V :=
  fold_left (λ results e,
               if fn e.2 e.1 c then (set e.1 e.2 results.1, results.2)
               else (results.1, set e.1 e.2 results.2))
            (entries c) (new None, new None).

(** [map]: [Array.from({ length: this.size }, ...)] over [this.entries()];
    destructuring the result of an exhausted iterator would throw, which
    is [None] here. *)
Definition map {R} (fn : V → K → Collection K V → R) c : option (list R) :=
  mapM (λ i, e ← entries c !! i; Some (fn e.2 e.1 c)) (seq 0 (size c)).

Definition mapValues {T} (fn : V → K → Collection K V → T) c : Collection K T :=
  fold_left (λ coll e, set e.1 (fn e.2 e.1 c) coll) (entries c) (new None).

Definition flatMap {T} (fn : V → K → Collection K V → Collection K T) c
    : option (Collection K T) :=
  collections ← map fn c; Some (concat (new None) collections).

(** [sorted]: a new collection built from the entries, sorted with a
    comparator that calls [compareFunction], whose default is the one of
    [sort]. *)
Definition sorted `{!JSGreater V}
    (compareFunction : option (V → V → K → K → Z)) c : Collection K V :=
  let compareFunction :=
    default (λ x y _ _, defaultCompare x y) compareFunction in
  sort (Some (λ av bv ak bk, compareFunction av bv ak bk))
       (new (Some (entries c))).
(** What [concat] has put under [k] after the arguments [cs]: the value
    of the last collection that has [k]. *)
Definition last_write (k : K) (start : option V) (cs : list (Collection K V))
    : option V :=
  fold_left (λ acc o, match get k o with Some v => Some v | None => acc end)
            cs start.

End collection_reads.

(** * Properties *)

(** ** The underlying map *)

Section jsmap_facts.
Context {K V : Type} `{!EqDecision K}.
Implicit Types (k : K) (v : V) (m : list (K * V)).

Lemma has_true k m : JSMap.has k m = true ↔ k ∈ m.*1.
Proof.
  induction m as [|[k' v'] m IH]; simpl.
  - split; [done | by intros ?%elem_of_nil].
  - rewrite elem_of_cons. destruct (decide (k = k')); [tauto|].
    rewrite IH. tauto.
Qed.

Lemma has_false k m : JSMap.has k m = false ↔ k ∉ m.*1.
Proof. rewrite <-has_true. by destruct (JSMap.has k m). Qed.

Lemma get_None k m : JSMap.get k m = None ↔ k ∉ m.*1.
Proof.
  induction m as [|[k' v'] m IH]; simpl.
  - split; [intros _; apply not_elem_of_nil | done].
  - rewrite not_elem_of_cons. destruct (decide (k = k')); [split; [done | tauto]|].
    rewrite IH. tauto.
Qed.

Lemma get_Some k v m : NoDup m.*1 → JSMap.get k m = Some v ↔ (k, v) ∈ m.
Proof.
  induction m as [|[k' v'] m IH]; simpl; intros Hnd.
  - split; [done | by intros ?%elem_of_nil].
  - apply NoDup_cons in Hnd as [Hk' Hnd]. rewrite elem_of_cons.
    destruct (decide (k = k')) as [->|Hne].
    + split; [intros [= ->]; by left|].
      intros [[= ->]|Hin]; [done|].
      destruct Hk'. apply list_elem_of_fmap. by exists (k', v).
    + rewrite (IH Hnd). split; [by right|].
      intros [[= -> _]|Hin]; done.
Qed.

Lemma set_fresh k v m : k ∉ m.*1 → JSMap.set k v m = m ++ [(k, v)].
Proof.
  induction m as [|[k' v'] m IH]; simpl; [done|].
  intros [Hne Hk]%not_elem_of_cons.
  destruct (decide (k = k')); [done|]. by rewrite IH.
Qed.

Lemma set_keys k v m :
  (JSMap.set k v m).*1 = if JSMap.has k m then m.*1 else m.*1 ++ [k].
Proof.
  induction m as [|[k' v'] m IH]; csimpl; [done|].
  destruct (decide (k = k')); csimpl; [done|].
  rewrite IH. by destruct (JSMap.has k m).
Qed.

Lemma set_NoDup k v m : NoDup m.*1 → NoDup (JSMap.set k v m).*1.
Proof.
  intros Hnd. rewrite set_keys.
  destruct (JSMap.has k m) eqn:Hhas; [done|].
  apply has_false in Hhas. apply NoDup_app. split_and!; [done| |apply NoDup_singleton].
  intros x Hx ->%list_elem_of_singleton. done.
Qed.

Lemma delete_sublist k m : JSMap.delete k m `sublist_of` m.
Proof.
  induction m as [|[k' v'] m IH]; simpl; [done|].
  destruct (decide (k = k')); [by apply sublist_cons | by apply sublist_skip].
Qed.

Lemma delete_NoDup k m : NoDup m.*1 → NoDup (JSMap.delete k m).*1.
Proof.
  intros Hnd. apply (sublist_NoDup _ m.*1 Hnd).
  apply fmap_sublist, delete_sublist.
Qed.

(** Adding pairs with new, pairwise distinct keys appends them. *)
Lemma fold_set_fresh (es m : list (K * V)) :
  NoDup (m ++ es).*1 →
  fold_left (λ m e, JSMap.set e.1 e.2 m) es m = m ++ es.
Proof.
  revert m. induction es as [|[k v] es IH]; intros m Hnd; simpl.
  - by rewrite app_nil_r.
  - rewrite set_fresh.
    + rewrite IH; rewrite <-app_assoc; [done|]. exact Hnd.
    + rewrite fmap_app in Hnd. apply NoDup_app in Hnd as (_ & Hd & _).
      intros Hk. apply (Hd k Hk). simpl. by left.
Qed.

Lemma fold_set_NoDup (es m : list (K * V)) :
  NoDup m.*1 → NoDup (fold_left (λ m e, JSMap.set e.1 e.2 m) es m).*1.
Proof.
  revert m. induction es as [|[k v] es IH]; intros m Hnd; simpl; [done|].
  by apply IH, set_NoDup.
Qed.

Lemma from_entries_NoDup (es : list (K * V)) : NoDup (JSMap.from_entries es).*1.
Proof. apply fold_set_NoDup. constructor. Qed.

Lemma from_entries_id (es : list (K * V)) :
  NoDup es.*1 → JSMap.from_entries es = es.
Proof. intros Hnd. unfold JSMap.from_entries. by rewrite fold_set_fresh. Qed.
End jsmap_facts.

(** ** The caches *)

Section cache.
Context {K V : Type} `{!EqDecision K, !EqDecision V, !JSGreater V}.
Implicit Types c : Collection K V.

Lemma cache_ok_reset (es : list (K * V)) : cache_ok (mkCollection es None None).
Proof. by split. Qed.

Lemma cache_ok_new (es : option (list (K * V))) : cache_ok (new es).
Proof. apply cache_ok_reset. Qed.

Lemma cache_ok_clear c : cache_ok (clear c).
Proof.
  split; intros a _ Hlen; simpl in *; by apply nil_length_inv in Hlen.
Qed.

Lemma array_entries c : entries (array c).2 = entries c.
Proof. unfold array. by destruct (array_stale c). Qed.

Lemma keyArray_entries c : entries (keyArray c).2 = entries c.
Proof. unfold keyArray. by destruct (keyArray_stale c). Qed.

Lemma array_fresh c : cache_ok c → (array c).1 = values c.
Proof.
  intros [Ha _]. unfold array, array_stale.
  destruct (_array c) as [a|] eqn:Hc; simpl; [|done].
  case_bool_decide; simpl; [by apply Ha | done].
Qed.

Lemma keyArray_fresh c : cache_ok c → (keyArray c).1 = keys c.
Proof.
  intros [_ Hk]. unfold keyArray, keyArray_stale.
  destruct (_keyArray c) as [a|] eqn:Hc; simpl; [|done].
  case_bool_decide; simpl; [by apply Hk | done].
Qed.

Lemma cache_ok_array c : cache_ok c → cache_ok (array c).2.
Proof.
  intros [Ha Hk]. unfold array. destruct (array_stale c); [|done].
  split; simpl; [by intros a [= <-] | exact Hk].
Qed.

Lemma cache_ok_keyArray c : cache_ok c → cache_ok (keyArray c).2.
Proof.
  intros [Ha Hk]. unfold keyArray. destruct (keyArray_stale c); [|done].
  split; simpl; [exact Ha | by intros a [= <-]].
Qed.

Lemma random_state amount rnd c : (random amount rnd c).2 = (array c).2.
Proof. unfold random. destruct (array c), amount; done. Qed.

Lemma randomKey_state amount rnd c : (randomKey amount rnd c).2 = (keyArray c).2.
Proof. unfold randomKey. destruct (keyArray c), amount; done. Qed.

Lemma cache_ok_sweep fn c : cache_ok c → cache_ok (sweep fn c).2.
Proof.
  unfold sweep; simpl. generalize (entries c) as es. intros es. revert c.
  induction es as [|e es IH]; intros c Hc; simpl; [done|].
  apply IH. destruct (fn e.2 e.1 c); [apply cache_ok_reset | done].
Qed.

Lemma cache_ok_step c op : cache_ok c → cache_ok (step c op).
Proof.
  intros Hc. destruct op; simpl.
  - apply cache_ok_reset.
  - apply cache_ok_reset.
  - apply cache_ok_clear.
  - by apply cache_ok_sweep.
  - apply cache_ok_reset.
  - by apply cache_ok_array.
  - by apply cache_ok_keyArray.
  - rewrite random_state. by apply cache_ok_array.
  - rewrite randomKey_state. by apply cache_ok_keyArray.
Qed.

Lemma cache_ok_run ops c : cache_ok c → cache_ok (run ops c).
Proof.
  revert c. induction ops as [|op ops IH]; intros c Hc; simpl; [done|].
  by apply IH, cache_ok_step.
Qed.

(** C1. Cache coherence: after any sequence of operations on a
    collection built by the constructor (mutations [set], [delete],
    [clear], [sweep], [sort] and cache-filling reads, in any order), the
    sequence returned by [array()] has the length of the collection and
    is the list of the values of the current entries in insertion order,
    the one returned by [keyArray()] is the list of their keys, and
    neither call changes the entries. *)
Theorem cache_coherence (es : option (list (K * V))) (ops : list (Op K V)) :
  let c := run ops (new es) in
  (array c).1 = (entries c).*2 ∧ length (array c).1 = size c ∧
  (keyArray c).1 = (entries c).*1 ∧ length (keyArray c).1 = size c ∧
  entries (array c).2 = entries c ∧ entries (keyArray c).2 = entries c.
Proof.
  intros c.
  assert (cache_ok c) as Hc by apply cache_ok_run, cache_ok_new.
  rewrite (array_fresh c Hc), (keyArray_fresh c Hc).
  unfold values, keys, size. rewrite !length_fmap.
  split_and!; auto using array_entries, keyArray_entries.
Qed.

(** C2 (as the code has it). [clear()] removes all entries and leaves
    both cache fields as they were; the next [array()] and [keyArray()]
    return the empty sequence all the same, a cache that is not empty
    failing the length test. *)
Theorem clear_spec c :
  size (clear c) = 0 ∧ entries (clear c) = [] ∧
  _array (clear c) = _array c ∧ _keyArray (clear c) = _keyArray c ∧
  (array (clear c)).1 = [] ∧ (keyArray (clear c)).1 = [].
Proof.
  split_and!; try done.
  - by rewrite (array_fresh _ (cache_ok_clear c)).
  - by rewrite (keyArray_fresh _ (cache_ok_clear c)).
Qed.
End cache.

(** C2, refuted as stated: after [array()] and [keyArray()] have filled
    the caches of a collection with one entry, [clear()] empties the
    collection and both caches are still the old, filled ones. *)
Lemma clear_keeps_caches :
  let c := (keyArray (array (new (Some [(1, "a")]))).2).2 in
  size (clear c) = 0 ∧
  _array (clear c) = Some ["a"] ∧ _keyArray (clear c) = Some [1] ∧
  ¬ (_array (clear c) = None ∧ _keyArray (clear c) = None).
Proof. split_and!; [done..|]. by intros [? _]. Qed.

(** ** Keys stay distinct *)

Section wf_facts.
Context {K V : Type} `{!EqDecision K, !EqDecision V}.
Implicit Types c : Collection K V.

Lemma wf_new es : wf (new (K:=K) (V:=V) es).
Proof. apply from_entries_NoDup. Qed.

Lemma wf_set k v c : wf c → wf (set k v c).
Proof. apply set_NoDup. Qed.

Lemma wf_delete k c : wf c → wf (delete k c).2.
Proof. apply delete_NoDup. Qed.

Lemma wf_clear c : wf (clear c).
Proof. constructor. Qed.

Lemma wf_array c : wf c → wf (array c).2.
Proof. unfold wf, keys. by rewrite array_entries. Qed.

Lemma wf_keyArray c : wf c → wf (keyArray c).2.
Proof. unfold wf, keys. by rewrite keyArray_entries. Qed.

Lemma wf_sweep fn c : wf c → wf (sweep fn c).2.
Proof.
  unfold sweep; simpl. generalize (entries c) as es. intros es. revert c.
  induction es as [|e es IH]; intros c Hc; simpl; [done|].
  apply IH. destruct (fn e.2 e.1 c); [by apply wf_delete | done].
Qed.

Lemma get_entry k v c : wf c → get k c = Some v ↔ (k, v) ∈ entries c.
Proof. apply get_Some. Qed.

Lemma clone_entries c : wf c → entries (clone c) = entries c.
Proof. apply from_entries_id. Qed.
End wf_facts.

(** ** [reduce] *)

Section reduce_facts.
Context {K V T : Type} `{!EqDecision K, !EqDecision V}.
Context (as_T : V → T) (fn : T → V → K → Collection K V → T).

Lemma reduce_loop_seeded (c : Collection K V) (es : list (K * V)) (acc : T) :
  fold_left (λ accumulator e,
               match accumulator with
               | None => Some (as_T e.2)
               | Some acc => Some (fn acc e.2 e.1 c)
               end) es (Some acc)
  = Some (fold_left (λ accumulator e, fn accumulator e.2 e.1 c) es acc).
Proof. revert acc. induction es as [|e es IH]; intros acc; simpl; auto. Qed.

(** C3. [reduce] without an initial value throws the [TypeError]
    "Reduce of empty collection with no initial value" (the error the
    specification calls InvalidOperation) on an empty collection; with an
    initial value it returns that value on an empty collection; without
    one on a collection that is not empty, the value of the first entry
    is the first accumulator and [fn] is folded from the left over the
    entries from the second on, in insertion order.  With an initial
    value the fold runs over all entries. *)
Theorem reduce_spec :
  (∀ a ka,
     reduce as_T fn None (mkCollection [] a ka)
     = inl (TypeError "Reduce of empty collection with no initial value")) ∧
  (∀ a ka initial,
     reduce as_T fn (Some initial) (mkCollection [] a ka) = inr initial) ∧
  (∀ k v rest a ka,
     let c := mkCollection ((k, v) :: rest) a ka in
     reduce as_T fn None c
     = inr (fold_left (λ acc e, fn acc e.2 e.1 c) rest (as_T v))) ∧
  (∀ c initial,
     reduce as_T fn (Some initial) c
     = inr (fold_left (λ acc e, fn acc e.2 e.1 c) (entries c) initial)).
Proof.
  split_and!; try done.
  intros k v rest a ka c. unfold reduce. simpl.
  by rewrite reduce_loop_seeded.
Qed.
End reduce_facts.

(** ** [random] and [randomKey] without a count *)

Section random_one.
Context {K V : Type} `{!EqDecision K, !EqDecision V}.
Implicit Types c : Collection K V.

Lemma array_length c : length (array c).1 = size c.
Proof.
  unfold array, array_stale, values, size.
  destruct (_array c) as [a|]; simpl.
  - case_bool_decide; simpl; [done|]. by rewrite length_fmap.
  - by rewrite length_fmap.
Qed.

Lemma keyArray_length c : length (keyArray c).1 = size c.
Proof.
  unfold keyArray, keyArray_stale, keys, size.
  destruct (_keyArray c) as [a|]; simpl.
  - case_bool_decide; simpl; [done|]. by rewrite length_fmap.
  - by rewrite length_fmap.
Qed.

Lemma Array_at_nil {A} (i : Z) : Array_at (@nil A) i = None.
Proof. unfold Array_at. by destruct (i <? 0)%Z. Qed.

(** C8. On an empty collection [random()] and [randomKey()] return
    [undefined], whatever [Math.random()] yields and whatever the caches
    hold; they throw nothing and leave the collection empty. *)
Theorem random_empty c (rnd : nat → Q) :
  size c = 0 →
  (random None rnd c).1 = One None ∧
  (randomKey None rnd c).1 = One None ∧
  size (random None rnd c).2 = 0 ∧ size (randomKey None rnd c).2 = 0.
Proof.
  intros Hsize.
  pose proof (array_length c) as Ha. pose proof (keyArray_length c) as Hk.
  pose proof (array_entries c) as Hea. pose proof (keyArray_entries c) as Hek.
  unfold random, randomKey, size in *.
  destruct (array c) as [arr c1], (keyArray c) as [karr c2]; simpl in *.
  rewrite Hsize in Ha, Hk.
  apply nil_length_inv in Ha as ->. apply nil_length_inv in Hk as ->.
  rewrite !Array_at_nil, Hea, Hek. done.
Qed.
End random_one.

Lemma random_empty_witness :
  let c := clear (array (new (Some [(1, "a")]))).2 in
  size c = 0 ∧
  (random None (λ _, 1 # 2)%Q c).1 = One None ∧
  (randomKey None (λ _, 1 # 2)%Q c).1 = One None.
Proof.
  intros c.
  destruct (random_empty c (λ _, 1 # 2)%Q) as (H1 & H2 & _); [reflexivity|].
  split_and!; [reflexivity | exact H1 | exact H2].
Defined.

(** ** [equals] *)

Section equals_facts.
Context {K V : Type} `{!EqDecision K, !EqDecision V}.
Implicit Types (c o : Collection K V) (h : gmap nat (Collection K V)).

Lemma get_has (k : K) (v : V) (m : list (K * V)) :
  JSMap.get k m = Some v → JSMap.has k m = true.
Proof.
  intros Hget. destruct (JSMap.has k m) eqn:Hhas; [done|].
  apply has_false, (get_None (V:=V)) in Hhas. congruence.
Qed.

Lemma equals_entries_true c o : equals_entries c o = true ↔ same_entries c o.
Proof.
  unfold equals_entries, same_entries. case_bool_decide as Hsize; simpl.
  - rewrite forallb_forall. split.
    + intros Hall. split; [done|]. intros k v Hin%list_elem_of_In.
      specialize (Hall _ Hin). simpl in Hall.
      apply negb_true_iff, orb_false_iff in Hall as [_ Hv].
      apply negb_false_iff, bool_decide_eq_true in Hv. done.
    + intros [_ Hall] [k v] Hin%list_elem_of_In.
      specialize (Hall _ _ Hin). unfold has, get in *. cbn [fst snd].
      rewrite (get_has _ _ _ Hall), Hall. simpl.
      by rewrite bool_decide_eq_true_2.
  - split; [done | by intros [? _]].
Qed.

Lemma same_entries_refl c : wf c → same_entries c c.
Proof. intros Hwf. split; [done|]. intros k v. by apply get_entry. Qed.

Lemma same_entries_perm c o c' o' :
  wf o → entries c' ≡ₚ entries c → entries o' ≡ₚ entries o →
  same_entries c' o' ↔ same_entries c o.
Proof.
  intros Hwf Hc Ho.
  assert (wf o') as Hwf' by (unfold wf, keys; by rewrite Ho).
  unfold same_entries, size. rewrite Hc, Ho.
  apply and_iff_compat_l.
  split; intros Hall k v Hin.
  - apply get_entry; [done|]. rewrite <-Ho. apply get_entry; [done|].
    apply Hall. by rewrite Hc.
  - apply get_entry; [done|]. rewrite Ho. apply get_entry; [done|].
    apply Hall. by rewrite <-Hc.
Qed.

Lemma equals_result h a b ca cb :
  h !! a = Some ca → h !! b = Some cb → wf ca →
  ∃ r, Heap.equals h a (Some b) = Some r ∧ (r = true ↔ same_entries ca cb).
Proof.
  intros Ha Hb Hwf. unfold Heap.equals.
  destruct (decide (a = b)) as [->|Hne]; rewrite Ha; simpl.
  - exists true. split; [done|]. split; [|done]. intros _.
    assert (ca = cb) as <- by congruence. by apply same_entries_refl.
  - rewrite Hb. simpl. eexists; split; [done|]. apply equals_entries_true.
Qed.

(** C9. [equals] of [null] or [undefined] is [false], for every
    receiver, with no error. *)
Theorem equals_null h (this : nat) : Heap.equals h this None = Some false.
Proof. reflexivity. Qed.
End equals_facts.

(** C5. [a.equals(b)] is [true] exactly when [a] and [b] have the same
    size and every key of [a] is mapped by [b] to the same value as by [a]
    (also when [b] is [a] itself, where the code answers at once); the
    answer is the same for any two collections holding the entries of [a]
    and of [b] in other orders; and {(1,"a"),(2,"b")} equals
    {(2,"b"),(1,"a")}. *)
Theorem equals_spec {K V : Type} `{!EqDecision K, !EqDecision V}
    (h : gmap nat (Collection K V)) (a b : nat) (ca cb : Collection K V) :
  h !! a = Some ca → h !! b = Some cb → wf ca → wf cb →
  (∃ r, Heap.equals h a (Some b) = Some r ∧
        (r = true ↔
         size ca = size cb ∧ ∀ k v, (k, v) ∈ entries ca → get k cb = Some v)) ∧
  (∀ h' a' b' ca' cb',
     h' !! a' = Some ca' → h' !! b' = Some cb' →
     entries ca' ≡ₚ entries ca → entries cb' ≡ₚ entries cb →
     Heap.equals h' a' (Some b') = Heap.equals h a (Some b)) ∧
  (let '(x, h1) := Heap.alloc ∅ (new (Some [(1, "a"); (2, "b")])) in
   let '(y, h2) := Heap.alloc h1 (new (Some [(2, "b"); (1, "a")])) in
   x ≠ y ∧ Heap.equals h2 x (Some y) = Some true).
Proof.
  intros Ha Hb Hwfa Hwfb. split_and!.
  - by apply equals_result.
  - intros h' a' b' ca' cb' Ha' Hb' Hpa Hpb.
    assert (wf ca') as Hwfa' by (unfold wf, keys; by rewrite Hpa).
    destruct (equals_result h a b ca cb Ha Hb Hwfa) as (r & -> & Hr).
    destruct (equals_result h' a' b' ca' cb' Ha' Hb' Hwfa') as (r' & -> & Hr').
    f_equal. rewrite (same_entries_perm ca cb ca' cb') in Hr' by done.
    destruct r, r'; intuition congruence.
  - vm_compute. split; [discriminate | reflexivity].
Qed.

Lemma equals_spec_witness :
  let h : gmap nat (Collection nat string) :=
    <[1 := new (Some [(2, "b"); (1, "a")])]>
      (<[0 := new (Some [(1, "a"); (2, "b")])]> ∅) in
  ∃ r, Heap.equals h 0 (Some 1) = Some r ∧
       (r = true ↔
        size (new (Some [(1, "a"); (2, "b")]))
        = size (new (Some [(2, "b"); (1, "a")])) ∧
        ∀ k v, (k, v) ∈ entries (new (Some [(1, "a"); (2, "b")])) →
               get k (new (Some [(2, "b"); (1, "a")])) = Some v).
Proof.
  intros h.
  refine (proj1 (equals_spec h 0 1 _ _ _ _ _ _)).
  - reflexivity.
  - reflexivity.
  - apply wf_new.
  - apply wf_new.
Defined.

(** ** [filter], [concat] and [difference] *)

Section setlike.
Context {K V : Type} `{!EqDecision K, !EqDecision V}.
Implicit Types (c o r : Collection K V) (m es : list (K * V)).

Lemma fold_filter_set (f : K * V → bool) es m :
  NoDup (m ++ es).*1 →
  fold_left (λ m e, if f e then JSMap.set e.1 e.2 m else m) es m
  = m ++ base.filter (λ e, f e = true) es.
Proof.
  revert m. induction es as [|[k v] es IH]; intros m Hnd; simpl.
  - by rewrite app_nil_r.
  - destruct (f (k, v)) eqn:Hf.
    + rewrite filter_cons_True by done.
      rewrite set_fresh.
      * rewrite IH; rewrite <-app_assoc; [done|]. exact Hnd.
      * rewrite fmap_app, fmap_cons in Hnd.
        apply NoDup_app in Hnd as (_ & Hd & _).
        intros Hk. apply (Hd _ Hk). by left.
    + rewrite filter_cons_False by congruence.
      apply IH. refine (sublist_NoDup _ _ Hnd _).
      apply fmap_sublist, sublist_app; [done | by apply sublist_cons].
Qed.

Lemma fold_set_entries es r :
  entries (fold_left (λ newColl e, set e.1 e.2 newColl) es r)
  = fold_left (λ m e, JSMap.set e.1 e.2 m) es (entries r).
Proof. revert r. induction es as [|e es IH]; intros r; simpl; [done|]. by rewrite IH. Qed.

Lemma filter_fold_entries (fn : V → K → Collection K V → bool) c es r :
  entries (fold_left (λ results e,
                        if fn e.2 e.1 c then set e.1 e.2 results else results) es r)
  = fold_left (λ m e, if fn e.2 e.1 c then JSMap.set e.1 e.2 m else m)
              es (entries r).
Proof.
  revert r. induction es as [|e es IH]; intros r; simpl; [done|].
  rewrite IH. by destruct (fn e.2 e.1 c).
Qed.

Lemma filter_entries (fn : V → K → Collection K V → bool) c :
  wf c →
  entries (filter fn c) = base.filter (λ e, fn e.2 e.1 c = true) (entries c).
Proof.
  intros Hwf. unfold filter. rewrite filter_fold_entries.
  by rewrite (fold_filter_set (λ e, fn e.2 e.1 c)).
Qed.

Lemma uncached_fold_filter (fn : V → K → Collection K V → bool) c es r :
  uncached r →
  uncached (fold_left (λ results e,
              if fn e.2 e.1 c then set e.1 e.2 results else results) es r).
Proof.
  revert r. induction es as [|e es IH]; intros r Hr; simpl; [done|].
  apply IH. by destruct (fn e.2 e.1 c).
Qed.

Lemma uncached_filter (fn : V → K → Collection K V → bool) c :
  uncached (filter fn c).
Proof. by apply uncached_fold_filter. Qed.

Lemma uncached_fold_set es r :
  uncached r → uncached (fold_left (λ newColl e, set e.1 e.2 newColl) es r).
Proof. revert r. induction es as [|e es IH]; intros r Hr; simpl; [done|]. by apply IH. Qed.

Lemma uncached_concat c (collections : list (Collection K V)) :
  uncached (concat c collections).
Proof.
  unfold concat. assert (uncached (clone c)) as Hr by done. revert Hr.
  generalize (clone c). induction collections as [|o os IH]; intros r Hr; simpl; [done|].
  by apply IH, uncached_fold_set.
Qed.

Lemma concat_one c o :
  wf c → NoDup (entries c ++ entries o).*1 →
  entries (concat c [o]) = entries c ++ entries o.
Proof.
  intros Hwf Hnd. unfold concat. simpl.
  rewrite fold_set_entries, clone_entries by done. by apply fold_set_fresh.
Qed.

Lemma filter_keys_NoDup (P : K * V → Prop) `{!∀ e, Decision (P e)} m :
  NoDup m.*1 → NoDup (base.filter P m).*1.
Proof.
  intros Hnd. refine (sublist_NoDup _ _ Hnd _).
  apply fmap_sublist, sublist_filter.
Qed.

(** C6. [a.difference(b)] holds the entries of [b] whose key is not in
    [a], in the order of [b], followed by the entries of [a] whose key is
    not in [b], in the order of [a], and nothing else; it comes with
    empty caches.  For A = {(1,"a"),(2,"b"),(3,"c")} and
    B = {(2,"x"),(3,"c"),(4,"d")} it is {(4,"d"),(1,"a")}. *)
Theorem difference_spec (a b : Collection K V) :
  wf a → wf b →
  entries (difference a b)
  = base.filter (λ e, e.1 ∉ keys a) (entries b)
    ++ base.filter (λ e, e.1 ∉ keys b) (entries a) ∧
  wf (difference a b) ∧
  _array (difference a b) = None ∧ _keyArray (difference a b) = None ∧
  difference (new (Some [(1, "a"); (2, "b"); (3, "c")]))
             (new (Some [(2, "x"); (3, "c"); (4, "d")]))
  = new (Some [(4, "d"); (1, "a")]).
Proof.
  intros Hwfa Hwfb.
  set (Fb := filter (λ _ k _, negb (has k a)) b).
  set (Fa := filter (λ _ k _, negb (has k b)) a).
  assert (entries Fb = base.filter (λ e, e.1 ∉ keys a) (entries b)) as Hb.
  { unfold Fb. rewrite filter_entries by done. apply list_filter_iff.
    intros [k v]. simpl. rewrite negb_true_iff. apply has_false. }
  assert (entries Fa = base.filter (λ e, e.1 ∉ keys b) (entries a)) as Ha.
  { unfold Fa. rewrite filter_entries by done. apply list_filter_iff.
    intros [k v]. simpl. rewrite negb_true_iff. apply has_false. }
  assert (NoDup (entries Fb ++ entries Fa).*1) as Hnd.
  { rewrite Ha, Hb, fmap_app. apply NoDup_app. split_and!.
    - by apply filter_keys_NoDup.
    - intros k ([k1 v1] & -> & [_ Hin]%list_elem_of_filter)%list_elem_of_fmap.
      intros ([k2 v2] & Hk & [Hnot _]%list_elem_of_filter)%list_elem_of_fmap.
      simpl in *. subst k2. apply Hnot, list_elem_of_fmap. by exists (k1, v1).
    - by apply filter_keys_NoDup. }
  assert (wf Fb) as HwfFb.
  { unfold wf, keys. rewrite Hb. by apply filter_keys_NoDup. }
  assert (entries (difference a b) = entries Fb ++ entries Fa) as Hd.
  { unfold difference. by apply concat_one. }
  split_and!.
  - by rewrite Hd, Ha, Hb.
  - unfold wf, keys. by rewrite Hd.
  - apply uncached_concat.
  - apply uncached_concat.
  - reflexivity.
Qed.
End setlike.

Lemma difference_spec_witness :
  let a := new (Some [(1, "a"); (2, "b"); (3, "c")]) in
  let b := new (Some [(2, "x"); (3, "c"); (4, "d")]) in
  wf a ∧ wf b ∧
  entries (difference a b)
  = base.filter (λ e, e.1 ∉ keys a) (entries b)
    ++ base.filter (λ e, e.1 ∉ keys b) (entries a).
Proof.
  intros a b.
  assert (wf a) as Ha by apply wf_new.
  assert (wf b) as Hb by apply wf_new.
  split_and!; [exact Ha | exact Hb |].
  exact (proj1 (difference_spec a b Ha Hb)).
Defined.

(** ** [concat] without arguments *)

Section concat_nil.
Context {K V : Type} `{!EqDecision K, !EqDecision V, !JSGreater V}.
Implicit Types (c : Collection K V) (h : gmap nat (Collection K V)).

Lemma alloc_fresh h c : h !! (Heap.alloc h c).1 = None.
Proof. apply not_elem_of_dom, is_fresh. Qed.

(** C10. [c.concat()] is [c.clone()]: it returns a reference that was
    not in use, so one distinct from [c], to an object with the entries
    of [c] in the same order and empty caches; [c] is as it was, and
    stays so under any operation on the result. *)
Theorem concat_no_arguments h (this : nat) c :
  h !! this = Some c → wf c →
  concat c [] = clone c ∧
  ∃ r h',
    Heap.concat h this [] = Some (r, h') ∧
    Heap.clone h this = Some (r, h') ∧
    r ≠ this ∧ h !! r = None ∧
    h' !! this = Some c ∧
    (∃ c', h' !! r = Some c' ∧ entries c' = entries c ∧ uncached c') ∧
    (∀ op : Op K V,
       ∃ h'', Heap.step h' r op = Some h'' ∧ h'' !! this = Some c).
Proof.
  intros Hthis Hwf. split; [done|].
  exists (Heap.alloc h (clone c)).1, (Heap.alloc h (clone c)).2.
  pose proof (alloc_fresh h (clone c)) as Hfresh.
  assert ((Heap.alloc h (clone c)).1 ≠ this) as Hne by congruence.
  unfold Heap.concat, Heap.clone. rewrite Hthis. simpl in *.
  split_and!; try done.
  - by rewrite lookup_insert_ne.
  - exists (clone c). rewrite lookup_insert_eq.
    split_and!; [done | by apply clone_entries | done].
  - intros op. unfold Heap.step. rewrite lookup_insert_eq. simpl.
    eexists; split; [done|]. by rewrite !lookup_insert_ne.
Qed.
End concat_nil.

Lemma concat_no_arguments_witness :
  let c : Collection nat Z := new (Some [(1, 3%Z); (2, 1%Z)]) in
  let h : gmap nat (Collection nat Z) := <[0 := c]> ∅ in
  ∃ r h',
    Heap.concat h 0 [] = Some (r, h') ∧
    Heap.clone h 0 = Some (r, h') ∧
    r ≠ 0 ∧ h !! r = None ∧
    h' !! 0 = Some c ∧
    (∃ c', h' !! r = Some c' ∧ entries c' = entries c ∧ uncached c') ∧
    (∀ op : Op nat Z,
       ∃ h'', Heap.step h' r op = Some h'' ∧ h'' !! 0 = Some c).
Proof.
  intros c h.
  refine (proj2 (concat_no_arguments h 0 c _ _)).
  - reflexivity.
  - apply wf_new.
Defined.

(** ** Sorting *)

Section array_sort.
Context {A : Type} (cmp : A → A → Z).
Implicit Types (x y : A) (l : list A).

Lemma Array_sort_insert_perm x l : Array_sort_insert cmp x l ≡ₚ x :: l.
Proof.
  induction l as [|y l IH]; simpl; [done|].
  destruct (0 <? cmp x y)%Z; [|done].
  rewrite IH. apply Permutation_swap.
Qed.

Lemma Array_sort_perm l : Array_sort cmp l ≡ₚ l.
Proof.
  induction l as [|x l IH]; simpl; [done|].
  by rewrite Array_sort_insert_perm, IH.
Qed.

(** Sortedness, for a relation [R] the comparator decides. *)
Section sorted.
Context (R : relation A) `{!Transitive R}.
Context (R_le : ∀ x y, ¬ (0 < cmp x y)%Z → R x y).
Context (R_gt : ∀ x y, (0 < cmp x y)%Z → R y x).

Lemma Array_sort_insert_sorted x l :
  StronglySorted R l → StronglySorted R (Array_sort_insert cmp x l).
Proof.
  induction 1 as [|y l Hl IH Hy]; simpl.
  - repeat constructor.
  - destruct (Z.ltb_spec 0 (cmp x y)) as [Hgt|Hle].
    + constructor; [done|].
      rewrite Array_sort_insert_perm. constructor; [by apply R_gt | done].
    + assert (R x y) as Hxy by (apply R_le; lia).
      constructor; [by constructor|].
      constructor; [done|].
      eapply Forall_impl; [exact Hy|]. intros z Hz. by trans y.
Qed.

Lemma Array_sort_sorted l : StronglySorted R (Array_sort cmp l).
Proof.
  induction l as [|x l IH]; simpl; [constructor|].
  by apply Array_sort_insert_sorted.
Qed.
End sorted.

(** Stability: the elements of a class that no element of the class
    is moved behind keep their order. *)
Section stable.
Context (P : A → Prop) `{!∀ x, Decision (P x)}.
Context (P_class : ∀ x y, P x → (0 < cmp x y)%Z → ¬ P y).

Lemma Array_sort_insert_stable x l :
  base.filter P (Array_sort_insert cmp x l) = base.filter P (x :: l).
Proof.
  induction l as [|y l IH]; simpl; [done|].
  destruct (Z.ltb_spec 0 (cmp x y)) as [Hgt|Hle]; [|done].
  destruct (decide (P x)) as [Hx|Hx].
  - rewrite (filter_cons_False P y) by eauto.
    rewrite (filter_cons_True P x), (filter_cons_False P y) by eauto.
    by rewrite IH, filter_cons_True.
  - rewrite (filter_cons_False P x) by done.
    rewrite !(filter_cons P y). rewrite IH, filter_cons_False by done.
    done.
Qed.

Lemma Array_sort_stable l :
  base.filter P (Array_sort cmp l) = base.filter P l.
Proof.
  induction l as [|x l IH]; simpl; [done|].
  by rewrite Array_sort_insert_stable, !filter_cons, IH.
Qed.
End stable.
End array_sort.

Section sort_facts.
Context {K V : Type} `{!EqDecision K, !EqDecision V, !JSGreater V}.
Implicit Types c : Collection K V.

Lemma sort_by_entries (compareFunction : V → V → K → K → Z) c :
  wf c →
  entries (sort_by compareFunction c)
  = Array_sort (λ a b, compareFunction a.2 b.2 a.1 b.1) (entries c).
Proof.
  intros Hwf. simpl. apply fold_set_fresh. simpl.
  unfold wf, keys in Hwf. by rewrite Array_sort_perm.
Qed.

Lemma wf_sort compareFunction c : wf (sort compareFunction c).
Proof. apply fold_set_NoDup. constructor. Qed.

Lemma wf_step c (op : Op K V) : wf c → wf (step c op).
Proof.
  intros Hc. destruct op; simpl.
  - by apply wf_set.
  - by apply wf_delete.
  - apply wf_clear.
  - by apply wf_sweep.
  - apply wf_sort.
  - by apply wf_array.
  - by apply wf_keyArray.
  - rewrite random_state. by apply wf_array.
  - rewrite randomKey_state. by apply wf_keyArray.
Qed.

(** Every collection reached from the constructor has distinct keys and
    coherent caches. *)
Lemma reachable_wf es (ops : list (Op K V)) : wf (run ops (new es)).
Proof.
  assert (wf (new (K:=K) (V:=V) es)) as Hc by apply wf_new. revert Hc.
  generalize (new (K:=K) (V:=V) es). unfold run.
  induction ops as [|op ops IH]; intros c Hc; simpl; [done|].
  by apply IH, wf_step.
Qed.

Lemma reachable_cache_ok es (ops : list (Op K V)) : cache_ok (run ops (new es)).
Proof. apply cache_ok_run, cache_ok_new. Qed.

Lemma defaultCompare_cases (x y : V) :
  defaultCompare x y
  = if js_gt x y then 1%Z else if decide (x = y) then 0%Z else (-1)%Z.
Proof.
  unfold defaultCompare. destruct (js_gt x y); simpl; [done|].
  by case_bool_decide; case_decide.
Qed.

Lemma defaultCompare_pos (x y : V) :
  (0 < defaultCompare x y)%Z ↔ js_gt x y = true.
Proof.
  rewrite defaultCompare_cases.
  destruct (js_gt x y); [done|]. case_decide; split; (lia || done).
Qed.
End sort_facts.

Section sort_default.
Context {K V : Type} `{!EqDecision K, !EqDecision V}.
Context `{!JSGreater V, !JSGreaterOrder V}.
Implicit Types c : Collection K V.

#[local] Instance ascending_trans : Transitive (ascending (K:=K) (V:=V)).
Proof.
  intros [k1 x] [k2 y] [k3 z]. unfold ascending. simpl. intros Hxy Hyz.
  destruct (js_gt x z) eqn:Hxz; [|done].
  destruct (js_gt_total x y) as [->|[Hgt|Hgt]]; [congruence..|].
  pose proof (js_gt_trans _ _ _ Hgt Hxz). congruence.
Qed.

Lemma js_gt_asym (x y : V) : js_gt x y = true → js_gt y x = false.
Proof.
  intros Hxy. destruct (js_gt y x) eqn:Hyx; [|done].
  pose proof (js_gt_trans _ _ _ Hxy Hyx) as Hxx.
  by rewrite js_gt_irrefl in Hxx.
Qed.

(** C7. [sort()] with the default comparator (1 when the first value
    is greater, 0 when the values are equal, -1 otherwise) returns its
    receiver, whose entries it has put in ascending order of the values,
    entries with the same value keeping their order; the underlying map
    is refilled in that order and both caches are reset.  Sorting
    {(1,3),(2,1),(3,1)} gives (2,1), (3,1), (1,3). *)
Theorem sort_default_spec (h : gmap nat (Collection K V)) (this : nat) c :
  h !! this = Some c → wf c →
  let c' := sort None c in
  (∀ x y : V,
     defaultCompare x y
     = if js_gt x y then 1%Z else if decide (x = y) then 0%Z else (-1)%Z) ∧
  Heap.sort h this None = Some (this, <[this := c']> h) ∧
  entries c' ≡ₚ entries c ∧
  StronglySorted ascending (entries c') ∧
  (∀ v, base.filter (λ e, e.2 = v) (entries c')
        = base.filter (λ e, e.2 = v) (entries c)) ∧
  _array c' = None ∧ _keyArray c' = None ∧
  entries (sort None (new (Some [(1, 3%Z); (2, 1%Z); (3, 1%Z)])))
  = [(2, 1%Z); (3, 1%Z); (1, 3%Z)].
Proof.
  intros Hthis Hwf c'.
  assert (entries c' = Array_sort (λ a b : K * V, defaultCompare a.2 b.2) (entries c))
    as Hc' by exact (sort_by_entries (λ x y _ _, defaultCompare x y) c Hwf).
  split_and!; try done.
  - apply defaultCompare_cases.
  - unfold Heap.sort, Heap.step. by rewrite Hthis.
  - rewrite Hc'. apply Array_sort_perm.
  - rewrite Hc'. apply Array_sort_sorted; [apply _ | |].
    + intros x y Hle. unfold ascending.
      destruct (js_gt x.2 y.2) eqn:Hgt; [|done].
      destruct Hle. by apply defaultCompare_pos.
    + intros x y Hgt%defaultCompare_pos. by apply js_gt_asym.
  - intros v. rewrite Hc'. apply Array_sort_stable.
    intros x y Hx Hgt%defaultCompare_pos Hy.
    rewrite Hx, Hy, js_gt_irrefl in Hgt. done.
Qed.
End sort_default.

#[export] Instance Z_JSGreaterOrder : JSGreaterOrder Z.
Proof.
  split; unfold js_gt, Z_JSGreater.
  - intros x. rewrite Z.gtb_ltb. apply Z.ltb_irrefl.
  - intros x y z. rewrite !Z.gtb_gt. lia.
  - intros x y. rewrite !Z.gtb_gt. lia.
Qed.

Lemma sort_default_spec_witness :
  let c : Collection nat Z := new (Some [(1, 3%Z); (2, 1%Z); (3, 1%Z)]) in
  let h : gmap nat (Collection nat Z) := <[0 := c]> ∅ in
  Heap.sort h 0 None = Some (0, <[0 := sort None c]> h) ∧
  StronglySorted ascending (entries (sort None c)) ∧
  ∀ v, base.filter (λ e, e.2 = v) (entries (sort None c))
       = base.filter (λ e, e.2 = v) (entries c).
Proof.
  intros c h.
  destruct (sort_default_spec h 0 c) as (_ & Hs & _ & Ha & Hf & _).
  - reflexivity.
  - apply wf_new.
  - split_and!; [exact Hs | exact Ha | exact Hf].
Defined.

(** ** Sampling *)

Section sampling.
Context (rnd : nat → Q).
Context (rnd_range : ∀ i, (0 <= rnd i)%Q ∧ (rnd i < 1)%Q).

Lemma random_index_range (r : Q) (len : nat) :
  (0 <= r)%Q → (r < 1)%Q → 0 < len →
  (0 ≤ random_index r len < Z.of_nat len)%Z.
Proof.
  intros H0 H1 Hlen. unfold random_index, Math_floor.
  set (L := inject_Z (Z.of_nat len)).
  assert (0 < L)%Q as HL.
  { unfold L. rewrite <-(Zlt_Qlt 0). lia. }
  split.
  - change 0%Z with (Qfloor (inject_Z 0)). apply Qfloor_resp_le.
    apply Qmult_le_0_compat; [done|]. by apply Qlt_le_weak.
  - rewrite Zlt_Qlt. eapply Qle_lt_trans; [apply Qfloor_le|].
    fold L. rewrite <-(Qmult_1_l L) at 2. by apply Qmult_lt_compat_r.
Qed.

Lemma Array_splice1_at {A} (i : Z) (arr : list A) :
  (0 ≤ i < Z.of_nat (length arr))%Z →
  ∃ x, arr !! Z.to_nat i = Some x ∧
       Array_splice1 i arr = ([x], base.delete (Z.to_nat i) arr).
Proof.
  intros [Hi0 Hi]. destruct (arr !! Z.to_nat i) as [x|] eqn:Hx.
  - exists x. split; [done|]. unfold Array_splice1.
    destruct (Z.ltb_spec i 0) as [?|_]; [lia|].
    rewrite Z.min_l by lia.
    rewrite (drop_S _ _ _ Hx), delete_take_drop. simpl. rewrite take_0.
    by rewrite Nat.add_1_r.
  - apply lookup_ge_None in Hx. lia.
Qed.

Lemma sample_spec {A} (n i : nat) (arr : list A) :
  n ≤ length arr →
  ∃ vs rest, sample n rnd i arr = Some <$> vs ∧ length vs = n ∧
             vs ++ rest ≡ₚ arr.
Proof.
  revert i arr. induction n as [|n IH]; intros i arr Hn; cbn [sample].
  - by exists [], arr.
  - destruct (rnd_range i) as [H0 H1].
    destruct (Array_splice1_at (random_index (rnd i) (length arr)) arr)
      as (x & Hx & ->).
    { apply random_index_range; [done..|lia]. }
    destruct (IH (S i) (base.delete (Z.to_nat (random_index (rnd i) (length arr))) arr))
      as (vs & rest & -> & Hlen & Hperm).
    { rewrite length_delete by eauto. lia. }
    exists (x :: vs), rest. split_and!; [done | by rewrite <-Hlen |].
    simpl. rewrite Hperm. symmetry. by apply delete_Permutation.
Qed.

Lemma sample_amount_spec {A} (n : nat) (arr : list A) :
  n ≤ length arr →
  ∃ vs rest, sample_amount (Z.of_nat n) rnd arr = Some <$> vs ∧
             length vs = n ∧ vs ++ rest ≡ₚ arr.
Proof.
  intros Hn. unfold sample_amount.
  case_bool_decide as Hlen; simpl.
  - assert (n = 0) as -> by lia. by exists [], arr.
  - case_bool_decide as Hz; simpl.
    + assert (n = 0) as -> by lia. by exists [], arr.
    + rewrite Z.min_l, Nat2Z.id by lia. by apply sample_spec.
Qed.
End sampling.

Section random_many.
Context {K V : Type} `{!EqDecision K, !EqDecision V}.
Implicit Types c : Collection K V.

Lemma random_many (amount : Z) rnd c :
  (random (Some amount) rnd c).1 = Many (sample_amount amount rnd (array c).1).
Proof. unfold random. by destruct (array c). Qed.

Lemma randomKey_many (amount : Z) rnd c :
  (randomKey (Some amount) rnd c).1
  = Many (sample_amount amount rnd (keyArray c).1).
Proof. unfold randomKey. by destruct (keyArray c). Qed.

Lemma array_cache c : cache_ok c → _array (array c).2 = Some (values c).
Proof.
  intros [Ha _]. unfold array, array_stale.
  destruct (_array c) as [a|] eqn:Hc; simpl; [|done].
  case_bool_decide; simpl; [|done]. rewrite Hc. f_equal. by apply Ha.
Qed.

Lemma keyArray_cache c : cache_ok c → _keyArray (keyArray c).2 = Some (keys c).
Proof.
  intros [_ Hk]. unfold keyArray, keyArray_stale.
  destruct (_keyArray c) as [a|] eqn:Hc; simpl; [|done].
  case_bool_decide; simpl; [|done]. rewrite Hc. f_equal. by apply Hk.
Qed.

(** C4 (as the code has it). For [n] at most the size, [random(n)]
    returns [n] values taken from [n] different positions of the value
    snapshot: together with the values left over they are a
    rearrangement of the values of the collection, so each is a value of
    the collection, and they are pairwise distinct when the values of
    the collection are.  [randomKey(n)] returns [n] pairwise distinct
    keys of the collection in the same way.  The entries are untouched,
    as is the cache of the other view; the cache of the sampled view
    holds the current view afterwards (it is filled when it was absent
    or stale, and the whole object is unchanged when it was not). *)
Theorem random_sample_spec c (n : nat) (rnd : nat → Q) :
  wf c → cache_ok c → n ≤ size c →
  (∀ i, (0 <= rnd i)%Q ∧ (rnd i < 1)%Q) →
  let res := random (Some (Z.of_nat n)) rnd c in
  let kres := randomKey (Some (Z.of_nat n)) rnd c in
  (∃ vs rest, res.1 = Many (Some <$> vs) ∧ length vs = n ∧
              vs ++ rest ≡ₚ values c ∧ (∀ v, v ∈ vs → v ∈ values c) ∧
              (NoDup (values c) → NoDup vs)) ∧
  (∃ ks rest, kres.1 = Many (Some <$> ks) ∧ length ks = n ∧
              ks ++ rest ≡ₚ keys c ∧ (∀ k, k ∈ ks → k ∈ keys c) ∧
              NoDup ks) ∧
  entries res.2 = entries c ∧ _keyArray res.2 = _keyArray c ∧
  _array res.2 = Some (values c) ∧ (array_stale c = false → res.2 = c) ∧
  entries kres.2 = entries c ∧ _array kres.2 = _array c ∧
  _keyArray kres.2 = Some (keys c) ∧ (keyArray_stale c = false → kres.2 = c).
Proof.
  intros Hwf Hok Hn Hrnd res kres. unfold res, kres.
  rewrite random_many, randomKey_many, random_state, randomKey_state.
  rewrite (array_fresh c Hok), (keyArray_fresh c Hok).
  split_and!.
  - destruct (sample_amount_spec rnd Hrnd n (values c)) as (vs & rest & Hs & Hl & Hp).
    { unfold values. by rewrite length_fmap. }
    exists vs, rest. rewrite Hs. split_and!; [done..| |].
    + intros v Hv. rewrite <-Hp. apply elem_of_app. by left.
    + intros Hnd. rewrite <-Hp in Hnd. by apply NoDup_app in Hnd as [? _].
  - destruct (sample_amount_spec rnd Hrnd n (keys c)) as (ks & rest & Hs & Hl & Hp).
    { unfold keys. by rewrite length_fmap. }
    exists ks, rest. rewrite Hs. split_and!; [done..| |].
    + intros k Hk. rewrite <-Hp. apply elem_of_app. by left.
    + unfold wf in Hwf. rewrite <-Hp in Hwf. by apply NoDup_app in Hwf as [? _].
  - apply array_entries.
  - unfold array. by destruct (array_stale c).
  - by apply array_cache.
  - unfold array. by intros ->.
  - apply keyArray_entries.
  - unfold keyArray. by destruct (keyArray_stale c).
  - by apply keyArray_cache.
  - unfold keyArray. by intros ->.
Qed.
End random_many.

Lemma random_sample_spec_witness :
  let c : Collection nat string := new (Some [(1, "a"); (2, "b"); (3, "c")]) in
  let rnd : nat → Q := λ i, (1 # Pos.of_nat (i + 2))%Q in
  ∃ vs rest,
    (random (Some 2%Z) rnd c).1 = Many (Some <$> vs) ∧ length vs = 2 ∧
    vs ++ rest ≡ₚ values c ∧ (∀ v, v ∈ vs → v ∈ values c) ∧
    (NoDup (values c) → NoDup vs).
Proof.
  intros c rnd.
  refine (proj1 (random_sample_spec c 2 rnd _ _ _ _)).
  - apply wf_new.
  - apply cache_ok_new.
  - vm_compute. lia.
  - intros i. unfold rnd, Qle, Qlt. simpl. lia.
Defined.

(** C4, refuted as stated: on {(1,"a"),(2,"a")}, whose cache is still
    absent, [random(2)] returns "a" twice, and it fills the value
    cache. *)
Lemma random_equal_values :
  let c : Collection nat string := new (Some [(1, "a"); (2, "a")]) in
  let res := random (Some 2%Z) (λ _, 0%Q) c in
  size c = 2 ∧ res.1 = Many [Some "a"; Some "a"] ∧
  ¬ NoDup [Some "a"; Some "a"] ∧
  _array c = None ∧ _array res.2 = Some ["a"; "a"] ∧ _array res.2 ≠ _array c.
Proof.
  split_and!; try done.
  intros [Hnot _]%NoDup_cons. apply Hnot. by left.
Qed.

(** * Further properties of the class *)

(** ** [set], [get], [has], [delete] and the constructor *)

Section map_laws.
Context {K V : Type} `{!EqDecision K, !EqDecision V}.
Implicit Types (c : Collection K V) (m : list (K * V)) (k : K) (v : V).

Lemma JSMap_get_set k k' v m :
  JSMap.get k (JSMap.set k' v m) = if decide (k = k') then Some v else JSMap.get k m.
Proof.
  induction m as [|[k0 v0] m IH]; simpl.
  - by destruct (decide (k = k')).
  - destruct (decide (k' = k0)) as [->|Hne]; simpl.
    + by destruct (decide (k = k0)).
    + destruct (decide (k = k0)) as [->|Hne0].
      * destruct (decide (k0 = k')); [congruence|done].
      * exact IH.
Qed.

Lemma JSMap_has_get k m : JSMap.has k m = bool_decide (is_Some (JSMap.get k m)).
Proof.
  induction m as [|[k0 v0] m IH]; simpl.
  - done.
  - by destruct (decide (k = k0)).
Qed.

Lemma JSMap_set_length k v m :
  length (JSMap.set k v m) = if JSMap.has k m then length m else S (length m).
Proof.
  induction m as [|[k0 v0] m IH]; simpl; [done|].
  destruct (decide (k = k0)); simpl; [done|].
  rewrite IH. by destruct (JSMap.has k m).
Qed.

Lemma filter_all {A} (P : A → Prop) `{!∀ x, Decision (P x)} (l : list A) :
  Forall P l → base.filter P l = l.
Proof.
  induction 1 as [|x l Hx _ IH]; [done|]. by rewrite filter_cons_True, IH.
Qed.

Lemma filter_none {A} (P : A → Prop) `{!∀ x, Decision (P x)} (l : list A) :
  Forall (λ x, ¬ P x) l → base.filter P l = [].
Proof.
  induction 1 as [|x l Hx _ IH]; [done|]. by rewrite filter_cons_False.
Qed.

Lemma JSMap_delete_filter k m :
  NoDup m.*1 → JSMap.delete k m = base.filter (λ e, e.1 ≠ k) m.
Proof.
  induction m as [|[k0 v0] m IH]; simpl; [done|].
  intros [Hk0 Hnd]%NoDup_cons.
  destruct (decide (k = k0)) as [->|Hne].
  - rewrite filter_cons_False by (simpl; tauto).
    symmetry. apply filter_all, Forall_forall. intros [k1 v1] Hin Heq.
    simpl in Heq. subst k1. apply Hk0, list_elem_of_fmap. by exists (k0, v1).
  - rewrite filter_cons_True by (simpl; congruence). by rewrite IH.
Qed.

Lemma JSMap_get_filter_ne k k' m :
  k' ≠ k → JSMap.get k' (base.filter (λ e, e.1 ≠ k) m) = JSMap.get k' m.
Proof.
  intros Hne. induction m as [|[k0 v0] m IH]; simpl; [done|].
  destruct (decide (k0 = k)) as [->|Hne0].
  - rewrite filter_cons_False by (simpl; tauto).
    destruct (decide (k' = k)); [done|exact IH].
  - rewrite filter_cons_True by done. simpl.
    destruct (decide (k' = k0)); [done|exact IH].
Qed.

(** X1. After [set(k, v)] the key [k] is present and mapped to [v], every
    other key is mapped as before, a key that was present keeps its
    position and a new one goes to the end, the size grows by one exactly
    for a new key, and both caches are reset. *)
Theorem set_spec c k v :
  get k (set k v c) = Some v ∧ has k (set k v c) = true ∧
  (∀ k', k' ≠ k →
     get k' (set k v c) = get k' c ∧ has k' (set k v c) = has k' c) ∧
  keys (set k v c) = (if has k c then keys c else keys c ++ [k]) ∧
  size (set k v c) = (if has k c then size c else S (size c)) ∧
  _array (set k v c) = None ∧ _keyArray (set k v c) = None.
Proof.
  unfold get, has, keys, size, set. simpl.
  assert (∀ k', JSMap.get k' (JSMap.set k v (entries c))
                = if decide (k' = k) then Some v else JSMap.get k' (entries c))
    as Hget by (intros; apply JSMap_get_set).
  split_and!; try done.
  - rewrite Hget. by destruct (decide (k = k)).
  - rewrite JSMap_has_get, Hget. destruct (decide (k = k)); [|done].
    by apply bool_decide_eq_true.
  - intros k' Hne. rewrite !JSMap_has_get, !Hget.
    by destruct (decide (k' = k)).
  - apply set_keys.
  - apply JSMap_set_length.
Qed.

(** X2. On a collection with distinct keys, [delete(k)] returns whether
    [k] was present and removes exactly the entry of [k]: the other
    entries stay, in their order and with their values, [k] is absent
    afterwards, and the size drops by one exactly when [k] was present.
    Both caches are reset even when nothing was removed. *)
Theorem delete_spec c k :
  wf c →
  (delete k c).1 = has k c ∧
  entries (delete k c).2 = base.filter (λ e, e.1 ≠ k) (entries c) ∧
  has k (delete k c).2 = false ∧ get k (delete k c).2 = None ∧
  (∀ k', k' ≠ k → get k' (delete k c).2 = get k' c) ∧
  (has k c = false → entries (delete k c).2 = entries c) ∧
  size (delete k c).2 = (if has k c then size c - 1 else size c) ∧
  _array (delete k c).2 = None ∧ _keyArray (delete k c).2 = None.
Proof.
  intros Hwf. unfold get, has, size, delete. simpl.
  rewrite (JSMap_delete_filter k _ Hwf).
  assert (k ∉ (base.filter (λ e : K * V, e.1 ≠ k) (entries c)).*1) as Hout.
  { intros ([k1 v1] & -> & [Hne _]%list_elem_of_filter)%list_elem_of_fmap. done. }
  assert (JSMap.has k (entries c) = false →
          base.filter (λ e : K * V, e.1 ≠ k) (entries c) = entries c) as Hid.
  { intros Hno%has_false. apply filter_all, Forall_forall.
    intros [k1 v1] Hin Heq. simpl in Heq. subst k1.
    apply Hno, list_elem_of_fmap. by exists (k, v1). }
  split_and!; try done.
  - by apply has_false.
  - by apply get_None.
  - intros k' Hne. by apply JSMap_get_filter_ne.
  - destruct (JSMap.has k (entries c)) eqn:Hhas; [|by rewrite Hid].
    rewrite <-(JSMap_delete_filter k _ Hwf). clear Hout Hid.
    unfold wf, keys in Hwf. apply has_true in Hhas.
    induction (entries c) as [|[k0 v0] m IH]; simpl in *.
    + by apply elem_of_nil in Hhas.
    + destruct (decide (k = k0)); simpl; [lia|].
      apply NoDup_cons in Hwf as [_ Hwf].
      apply elem_of_cons in Hhas as [?|Hhas]; [done|].
      specialize (IH Hwf Hhas). destruct m; simpl in *; [by apply elem_of_nil in Hhas|lia].
Qed.

(** X3. [set] of a key that is absent followed by [delete] of that key
    gives the entries back, and that [delete] returns [true]. *)
Theorem set_delete_roundtrip c k v :
  has k c = false →
  entries (delete k (set k v c)).2 = entries c ∧
  (delete k (set k v c)).1 = true.
Proof.
  intros Hno. unfold has, delete, set in *. simpl.
  apply has_false in Hno. rewrite set_fresh by done. split.
  - clear -Hno. induction (entries c) as [|[k0 v0] m IH]; simpl in *.
    + by destruct (decide (k = k)).
    + apply not_elem_of_cons in Hno as [Hne Hno].
      destruct (decide (k = k0)); [done|]. by rewrite IH.
  - apply has_true. rewrite fmap_app. apply elem_of_app. right. by left.
Qed.

Lemma from_entries_snoc (es : list (K * V)) (e : K * V) :
  JSMap.from_entries (es ++ [e]) = JSMap.set e.1 e.2 (JSMap.from_entries es).
Proof. unfold JSMap.from_entries. by rewrite fold_left_app. Qed.

Lemma from_entries_keys_elem k (es : list (K * V)) :
  k ∈ (JSMap.from_entries es).*1 ↔ k ∈ es.*1.
Proof.
  induction es as [|e es IH] using rev_ind.
  - done.
  - rewrite from_entries_snoc, set_keys, fmap_app, elem_of_app. simpl.
    destruct (JSMap.has e.1 (JSMap.from_entries es)) eqn:Hhas.
    + apply has_true in Hhas. rewrite IH. split; [tauto|].
      intros [?|Hk]; [done|]. apply list_elem_of_singleton in Hk as ->. by apply IH.
    + rewrite elem_of_app, IH. done.
Qed.

(** X4. The constructor keeps, for every key, the value of the last pair
    given for it and the position of the first one: lookups answer as in
    the reversed input, and the keys are the keys of the input with the
    repetitions after a first occurrence removed.  The keys of the result
    are pairwise distinct, input with distinct keys is kept as it is, and
    [null] gives the empty collection. *)
Theorem constructor_spec (es : list (K * V)) :
  wf (new (Some es)) ∧
  (∀ k, get k (new (Some es)) = JSMap.get k (reverse es)) ∧
  keys (new (Some es)) = reverse (remove_dups (reverse es.*1)) ∧
  (NoDup es.*1 → entries (new (Some es)) = es) ∧
  entries (new (K:=K) (V:=V) None) = [] ∧
  _array (new (Some es)) = None ∧ _keyArray (new (Some es)) = None.
Proof.
  split_and!; try done.
  - apply wf_new.
  - intros k. unfold get, new. cbn [entries default from_option id].
    induction es as [|e es IH] using rev_ind; [done|].
    rewrite from_entries_snoc, JSMap_get_set, reverse_snoc, IH.
    by destruct e as [k0 v0].
  - unfold keys, new. cbn [entries default from_option id].
    induction es as [|e es IH] using rev_ind; [done|].
    replace ((es ++ [e]).*1) with (es.*1 ++ [e.1]) by (by rewrite fmap_app).
    rewrite from_entries_snoc, set_keys, reverse_snoc.
    cbn [remove_dups].
    destruct (JSMap.has e.1 (JSMap.from_entries es)) eqn:Hhas.
    + apply has_true in Hhas. rewrite from_entries_keys_elem in Hhas.
      destruct (decide_rel _ _ _) as [_|Hd]; [exact IH|].
      destruct Hd. by rewrite elem_of_reverse.
    + apply has_false in Hhas. rewrite from_entries_keys_elem in Hhas.
      destruct (decide_rel _ _ _) as [Hd|_].
      * destruct Hhas. by rewrite elem_of_reverse in Hd.
      * by rewrite reverse_cons, IH.
  - apply from_entries_id.
Qed.
End map_laws.

Lemma delete_spec_witness :
  let c : Collection nat string := new (Some [(1, "a"); (2, "b"); (3, "c")]) in
  entries (delete 2 c).2 = base.filter (λ e, e.1 ≠ 2) (entries c).
Proof.
  intros c.
  refine (proj1 (proj2 (delete_spec c 2 _))). apply wf_new.
Defined.

Lemma set_delete_roundtrip_witness :
  let c : Collection nat string := new (Some [(1, "a"); (2, "b")]) in
  entries (delete 7 (set 7 "z" c)).2 = entries c.
Proof.
  intros c. refine (proj1 (set_delete_roundtrip c 7 "z" _)). reflexivity.
Defined.

(** ** Positional reads *)

Section positional.
Context {K V : Type} `{!EqDecision K, !EqDecision V}.
Implicit Types c : Collection K V.

Lemma Array_from_iter_take {A} (n : nat) (l : list A) :
  n ≤ length l → (λ i, l !! i) <$> seq 0 n = Some <$> take n l.
Proof.
  revert n. induction l as [|x l IH]; intros [|n] Hn; simpl in *; try done; [lia|].
  f_equal. rewrite <-fmap_S_seq, <-list_fmap_compose. apply IH. lia.
Qed.

Lemma Array_from_iter_min {A} (amount : Z) (l : list A) :
  Array_from_iter (Z.min (Z.of_nat (length l)) amount) l
  = Some <$> take (Z.to_nat amount) l.
Proof.
  unfold Array_from_iter. rewrite Array_from_iter_take by lia.
  f_equal. destruct (Z.le_ge_cases (Z.of_nat (length l)) amount).
  - rewrite Z.min_l, Nat2Z.id by done. rewrite !take_ge; [done|lia|lia].
  - by rewrite Z.min_r.
Qed.

Lemma first_amount_take (amount : Z) c :
  first_amount amount c = Some <$> take (Z.to_nat amount) (values c).
Proof.
  unfold first_amount, size, values.
  rewrite <-(length_fmap snd (entries c)). apply Array_from_iter_min.
Qed.

Lemma firstKey_amount_take (amount : Z) c :
  firstKey_amount amount c = Some <$> take (Z.to_nat amount) (keys c).
Proof.
  unfold firstKey_amount, size, keys.
  rewrite <-(length_fmap fst (entries c)). apply Array_from_iter_min.
Qed.

Lemma Array_slice_from_last {A} (n : nat) (l : list A) :
  Array_slice_from (- Z.of_nat (S n)) l = drop (length l - S n) l.
Proof.
  unfold Array_slice_from. destruct (Z.ltb_spec (- Z.of_nat (S n)) 0); [|lia].
  f_equal. lia.
Qed.

Lemma Array_at_last {A} (l : list A) :
  Array_at l (Z.of_nat (length l) - 1) = head (reverse l).
Proof.
  unfold Array_at. rewrite head_reverse.
  destruct l as [|x l] using rev_ind; [done|].
  rewrite length_app, last_snoc. simpl.
  destruct (Z.ltb_spec (Z.of_nat (length l + 1) - 1) 0); [lia|].
  replace (Z.to_nat (Z.of_nat (length l + 1) - 1)) with (length l) by lia.
  by rewrite list_lookup_middle.
Qed.

Lemma first_nonneg c (n : Z) :
  (0 ≤ n)%Z →
  first (Some n) c = (Many (Some <$> take (Z.to_nat n) (values c)), c).
Proof.
  intros Hn. unfold first. destruct (Z.ltb_spec n 0); [lia|].
  by rewrite first_amount_take.
Qed.

Lemma last_positive c (n : nat) :
  cache_ok c → 0 < n →
  (last (Some (Z.of_nat n)) c).1 = Many (Some <$> drop (size c - n) (values c)).
Proof.
  intros Hok Hn. pose proof (array_fresh c Hok) as Ha. unfold last.
  destruct (array c) as [arr c1]. simpl in Ha. subst arr.
  destruct n as [|n]; [lia|].
  destruct (Z.ltb_spec (Z.of_nat (S n)) 0); [lia|].
  rewrite bool_decide_eq_false_2 by lia. simpl.
  rewrite Array_slice_from_last. unfold values, size. by rewrite length_fmap.
Qed.

Lemma last_zero c : (last (Some 0%Z) c).1 = Many [].
Proof. unfold last. by destruct (array c). Qed.

(** X5. [first()] is the value of the first entry, [undefined] on an empty
    collection; for [n >= 0], [first(n)] is the list of the first [n]
    values in insertion order, all of them when [n] exceeds the size;
    [firstKey] does the same for the keys.  None of these calls changes
    the collection or its caches. *)
Theorem first_spec c :
  first None c = (One (head (values c)), c) ∧
  firstKey None c = (One (head (keys c)), c) ∧
  (values c = [] → (first None c).1 = One None) ∧
  ∀ n : Z, (0 ≤ n)%Z →
    first (Some n) c = (Many (Some <$> take (Z.to_nat n) (values c)), c) ∧
    firstKey (Some n) c = (Many (Some <$> take (Z.to_nat n) (keys c)), c).
Proof.
  split_and!; try done.
  - intros Hnil. simpl. by rewrite Hnil.
  - intros n Hn. unfold first, firstKey.
    destruct (Z.ltb_spec n 0); [lia|].
    by rewrite first_amount_take, firstKey_amount_take.
Qed.

(** X6. With coherent caches, [last()] is the value of the last entry
    ([undefined] on an empty collection), [last(0)] is empty and, for
    [n > 0], [last(n)] is the list of the last [n] values in insertion
    order, all of them when [n] exceeds the size.  A negative count is
    handed to [first] with its sign changed.  The call leaves the
    collection as [array()] does. *)
Theorem last_spec c :
  cache_ok c →
  (last None c).1 = One (head (reverse (values c))) ∧
  (last (Some 0%Z) c).1 = Many [] ∧
  (∀ n : nat, 0 < n →
     (last (Some (Z.of_nat n)) c).1
     = Many (Some <$> drop (size c - n) (values c)) ∧
     (lastKey (Some (Z.of_nat n)) c).1
     = Many (Some <$> drop (size c - n) (keys c))) ∧
  (∀ n : Z, (n < 0)%Z →
     last (Some n) c = first (Some (- n)%Z) (array c).2) ∧
  (∀ amount, (last amount c).2 = (array c).2).
Proof.
  intros Hok.
  pose proof (array_fresh c Hok) as Ha. pose proof (keyArray_fresh c Hok) as Hk.
  unfold last, lastKey.
  destruct (array c) as [arr c1] eqn:Harr, (keyArray c) as [karr c2] eqn:Hkarr.
  simpl in Ha, Hk. subst arr karr. split_and!.
  - simpl. by rewrite Array_at_last.
  - done.
  - intros [|n] Hn; [lia|].
    destruct (Z.ltb_spec (Z.of_nat (S n)) 0); [lia|].
    rewrite !bool_decide_eq_false_2 by lia. simpl.
    rewrite !Array_slice_from_last.
    unfold values, keys, size. by rewrite !length_fmap.
  - intros n Hn. destruct (Z.ltb_spec n 0); [|lia].
    unfold first. destruct (Z.ltb_spec (- n) 0); [lia|].
    simpl. do 3 f_equal. lia.
  - intros [amount|]; [|done]. simpl.
    destruct (amount <? 0)%Z; [done|]. by case_bool_decide.
Qed.

(** X7. For [0 <= n <= size] and coherent caches, the values returned by
    [first(n)] followed by those returned by [last(size - n)] are the
    values of the collection in insertion order. *)
Theorem first_last_cover c (n : nat) :
  cache_ok c → n ≤ size c →
  ∃ l1 l2,
    (first (Some (Z.of_nat n)) c).1 = Many (Some <$> l1) ∧
    (last (Some (Z.of_nat (size c - n))) c).1 = Many (Some <$> l2) ∧
    l1 ++ l2 = values c ∧ length l1 = n.
Proof.
  intros Hok Hn.
  assert (length (values c) = size c) as Hlen.
  { unfold values, size. by rewrite length_fmap. }
  exists (take n (values c)), (drop n (values c)).
  rewrite first_nonneg, Nat2Z.id by lia. split_and!; [done| |apply take_drop|].
  - destruct (decide (size c - n = 0)) as [Hz|Hz].
    + rewrite Hz. change (Z.of_nat 0) with 0%Z. rewrite last_zero.
      rewrite drop_ge; [done|lia].
    + rewrite last_positive by (done || lia). do 3 f_equal. lia.
  - rewrite length_take. lia.
Qed.

(** X8. Right after [array()] a second [array()] returns the same sequence
    and changes nothing (a cache hit), whatever the state before the first
    call; the same holds for [keyArray()], and filling one cache does not
    change what the other view returns. *)
Theorem snapshot_reads_idempotent c :
  array (array c).2 = array c ∧
  keyArray (keyArray c).2 = keyArray c ∧
  (keyArray (array c).2).1 = (keyArray c).1 ∧
  (array (keyArray c).2).1 = (array c).1.
Proof.
  unfold array, keyArray, array_stale, keyArray_stale, size, values, keys.
  destruct c as [es [a|] [ka|]]; simpl;
    repeat (case_bool_decide; simpl); rewrite ?length_fmap in *;
    try done; try (by rewrite bool_decide_eq_true_2 by (by rewrite length_fmap));
    try (rewrite bool_decide_eq_true_2 by (by rewrite length_fmap); done).
Qed.
End positional.

Lemma last_spec_witness :
  let c : Collection nat string := new (Some [(1, "a"); (2, "b"); (3, "c")]) in
  (last None c).1 = One (head (reverse (values c))) ∧
  (last (Some 0%Z) c).1 = Many [].
Proof.
  intros c. destruct (last_spec c) as (H1 & H2 & _).
  - apply cache_ok_new.
  - split; [exact H1 | exact H2].
Defined.

Lemma first_last_cover_witness :
  let c : Collection nat string := new (Some [(1, "a"); (2, "b"); (3, "c")]) in
  ∃ l1 l2,
    (first (Some 1%Z) c).1 = Many (Some <$> l1) ∧
    (last (Some 2%Z) c).1 = Many (Some <$> l2) ∧
    l1 ++ l2 = values c ∧ length l1 = 1.
Proof.
  intros c. refine (first_last_cover c 1 _ _).
  - apply cache_ok_new.
  - vm_compute. lia.
Defined.

(** ** Searching *)

Section searching.
Context {K V : Type} `{!EqDecision K, !EqDecision V}.
Implicit Types (c : Collection K V) (fn : V → K → Collection K V → bool).

Lemma List_find_first {A} (f : A → bool) (l1 l2 : list A) (x : A) :
  Forall (λ y, f y = false) l1 → f x = true →
  List.find f (l1 ++ x :: l2) = Some x.
Proof.
  induction 1 as [|y l1 Hy _ IH]; intros Hx; simpl.
  - by rewrite Hx.
  - rewrite Hy. by apply IH.
Qed.

Lemma List_find_Some {A} (f : A → bool) (l : list A) (x : A) :
  List.find f l = Some x →
  ∃ l1 l2, l = l1 ++ x :: l2 ∧ f x = true ∧ Forall (λ y, f y = false) l1.
Proof.
  induction l as [|y l IH]; simpl; [done|].
  destruct (f y) eqn:Hy.
  - intros [= ->]. by exists [], l.
  - intros (l1 & l2 & -> & Hx & Hl1)%IH.
    exists (y :: l1), l2. split_and!; [done..|]. by constructor.
Qed.

Lemma List_find_None {A} (f : A → bool) (l : list A) :
  List.find f l = None ↔ Forall (λ y, f y = false) l.
Proof.
  induction l as [|y l IH]; simpl; [by split|].
  destruct (f y) eqn:Hy.
  - split; [done|]. intros [? _]%Forall_cons. congruence.
  - rewrite IH. split; [by constructor | by intros [_ ?]%Forall_cons].
Qed.

(** X9. [find] and [findKey] return the value and the key of the first
    entry, in insertion order, that [fn] accepts: the entries before it are
    all rejected.  They return [undefined] exactly when [fn] rejects every
    entry.  On a collection with distinct keys, the value found is the one
    stored under the key found. *)
Theorem find_spec fn c :
  (∀ v, find fn c = Some v →
        ∃ l1 k l2, entries c = l1 ++ (k, v) :: l2 ∧ fn v k c = true ∧
                   findKey fn c = Some k ∧
                   Forall (λ e, fn e.2 e.1 c = false) l1) ∧
  (∀ l1 k v l2,
     entries c = l1 ++ (k, v) :: l2 → fn v k c = true →
     Forall (λ e, fn e.2 e.1 c = false) l1 →
     find fn c = Some v ∧ findKey fn c = Some k) ∧
  (find fn c = None ↔ ∀ k v, (k, v) ∈ entries c → fn v k c = false) ∧
  (findKey fn c = None ↔ find fn c = None) ∧
  (wf c → find fn c = findKey fn c ≫= λ k, get k c).
Proof.
  unfold find, findKey.
  split_and!.
  - intros v Hfind.
    destruct (List.find _ (entries c)) as [[k v']|] eqn:Hf; [|done].
    simpl in Hfind. injection Hfind as ->.
    apply List_find_Some in Hf as (l1 & l2 & Hes & Hfn & Hl1).
    by exists l1, k, l2.
  - intros l1 k v l2 -> Hfn Hl1.
    by rewrite (List_find_first (λ e, fn e.2 e.1 _) l1 l2 (k, v)).
  - rewrite fmap_None, List_find_None, Forall_forall.
    split; [intros H k v; apply (H (k, v)) | intros H [k v]; apply H].
  - by rewrite !fmap_None.
  - intros Hwf.
    destruct (List.find _ (entries c)) as [[k v]|] eqn:Hf; [|done].
    apply List_find_Some in Hf as (l1 & l2 & Hes & _ & _). simpl.
    symmetry. apply get_entry; [done|]. rewrite Hes.
    apply elem_of_app. right. by left.
Qed.

(** X10. [some] is [true] exactly when [fn] accepts an entry, which is
    when [find] finds one; [every] is [true] exactly when [fn] accepts all
    entries, and is the negation of [some] for the negated test.  So on an
    empty collection [some] is [false] and [every] is [true]. *)
Theorem some_every_spec fn c :
  (some fn c = true ↔ ∃ k v, (k, v) ∈ entries c ∧ fn v k c = true) ∧
  (every fn c = true ↔ ∀ k v, (k, v) ∈ entries c → fn v k c = true) ∧
  (some fn c = true ↔ is_Some (find fn c)) ∧
  every fn c = negb (some (λ v k c, negb (fn v k c)) c) ∧
  (entries c = [] → some fn c = false ∧ every fn c = true).
Proof.
  unfold some, every, find. split_and!.
  - rewrite existsb_exists. split.
    + intros ([k v] & Hin%list_elem_of_In & Hfn). by exists k, v.
    + intros (k & v & Hin%list_elem_of_In & Hfn). by exists (k, v).
  - rewrite forallb_forall. split.
    + intros H k v Hin%list_elem_of_In. by apply (H (k, v)).
    + intros H [k v] Hin%list_elem_of_In. by apply H.
  - rewrite fmap_is_Some, <-not_eq_None_Some, List_find_None.
    induction (entries c) as [|e es IH]; simpl.
    + split; [done|]. intros H. by destruct H.
    + destruct (fn e.2 e.1 c) eqn:Hfn; simpl.
      * split; [|done]. intros _ [? _]%Forall_cons. congruence.
      * rewrite IH. split; intros H; [by intros [_ ?]%Forall_cons|].
        intros ?. apply H. by constructor.
  - induction (entries c) as [|e es IH]; simpl; [done|].
    rewrite IH, negb_orb. by rewrite negb_involutive.
  - by intros ->.
Qed.
End searching.

Lemma find_spec_witness :
  let c : Collection nat Z := new (Some [(1, 5%Z); (2, 8%Z); (3, 9%Z)]) in
  let fn : Z → nat → Collection nat Z → bool := λ v _ _, (6 <? v)%Z in
  find fn c = findKey fn c ≫= λ k, get k c.
Proof.
  intros c fn.
  refine (proj2 (proj2 (proj2 (proj2 (find_spec fn c)))) _). apply wf_new.
Defined.

Lemma some_every_spec_witness :
  let c : Collection nat Z := new None in
  some (λ _ _ _, true) c = false ∧ every (λ _ _ _, false) c = true.
Proof.
  intros c. split.
  - refine (proj1 (proj2 (proj2 (proj2 (proj2 (some_every_spec (λ _ _ _, true) c)))) _)).
    reflexivity.
  - refine (proj2 (proj2 (proj2 (proj2 (proj2 (some_every_spec (λ _ _ _, false) c)))) _)).
    reflexivity.
Defined.

(** ** [sweep], [filter], [partition] and [intersect] *)

Section selecting.
Context {K V : Type} `{!EqDecision K, !EqDecision V}.
Implicit Types (c : Collection K V) (m es : list (K * V)).

Lemma JSMap_delete_middle (k : K) (v : V) (pre es : list (K * V)) :
  k ∉ pre.*1 → JSMap.delete k (pre ++ (k, v) :: es) = pre ++ es.
Proof.
  induction pre as [|[k0 v0] pre IH]; simpl; intros Hk.
  - by destruct (decide (k = k)).
  - apply not_elem_of_cons in Hk as [Hne Hk].
    destruct (decide (k = k0)); [done|]. by rewrite IH.
Qed.

Lemma sweep_loop (p : V → K → bool) es pre (this : Collection K V) :
  entries this = pre ++ es → NoDup (pre ++ es).*1 →
  entries (fold_left (λ this e, if p e.2 e.1 then (delete e.1 this).2 else this)
                     es this)
  = pre ++ base.filter (λ e, p e.2 e.1 = false) es.
Proof.
  revert pre this. induction es as [|[k v] es IH]; intros pre this Hthis Hnd; simpl.
  - by rewrite Hthis.
  - destruct (p v k) eqn:Hp.
    + rewrite filter_cons_False by (simpl; congruence).
      apply IH.
      * simpl. rewrite Hthis. apply JSMap_delete_middle.
        rewrite fmap_app in Hnd. apply NoDup_app in Hnd as (_ & Hd & _).
        intros Hk. apply (Hd _ Hk). by left.
      * refine (sublist_NoDup _ _ Hnd _).
        apply fmap_sublist, sublist_app; [done | by apply sublist_cons].
    + rewrite filter_cons_True by done.
      rewrite cons_middle, app_assoc.
      apply IH; rewrite <-app_assoc; done.
Qed.

Lemma filter_bool_lengths {A} (f : A → bool) (l : list A) :
  length (base.filter (λ x, f x = true) l)
  + length (base.filter (λ x, f x = false) l) = length l.
Proof.
  induction l as [|x l IH]; [done|].
  rewrite !filter_cons. destruct (f x) eqn:Hf.
  - rewrite decide_True, decide_False by done. simpl. lia.
  - rewrite decide_False, decide_True by done. simpl. lia.
Qed.

Lemma filter_bool_perm {A} (f : A → bool) (l : list A) :
  base.filter (λ x, f x = true) l ++ base.filter (λ x, f x = false) l ≡ₚ l.
Proof.
  induction l as [|x l IH]; [done|].
  rewrite !filter_cons. destruct (f x) eqn:Hf.
  - rewrite decide_True, decide_False by done. simpl. by rewrite IH.
  - rewrite decide_False, decide_True by done.
    rewrite <-Permutation_middle. by rewrite IH.
Qed.

Lemma sweep_loop_id (p : V → K → bool) es (this : Collection K V) :
  Forall (λ e, p e.2 e.1 = false) es →
  fold_left (λ this e, if p e.2 e.1 then (delete e.1 this).2 else this) es this
  = this.
Proof.
  induction 1 as [|e es He _ IH]; simpl; [done|]. by rewrite He.
Qed.

(** X11. For a test of the value and the key alone, on a collection with
    distinct keys, [sweep] removes exactly the entries the test accepts,
    keeps the others in their order, and returns the number of entries
    removed.  When the test accepts no entry the collection is left as it
    was, caches included. *)
Theorem sweep_spec (p : V → K → bool) c :
  wf c →
  entries (sweep (λ v k _, p v k) c).2
  = base.filter (λ e, p e.2 e.1 = false) (entries c) ∧
  (sweep (λ v k _, p v k) c).1
  = length (base.filter (λ e, p e.2 e.1 = true) (entries c)) ∧
  (sweep (λ v k _, p v k) c).1 + size (sweep (λ v k _, p v k) c).2 = size c ∧
  (Forall (λ e, p e.2 e.1 = false) (entries c) →
   sweep (λ v k _, p v k) c = (0, c)).
Proof.
  intros Hwf. unfold sweep, size. cbn [fst snd].
  rewrite (sweep_loop p (entries c) [] c) by done. simpl.
  pose proof (filter_bool_lengths (λ e : K * V, p e.2 e.1) (entries c)) as Hlen.
  cbv beta in Hlen.
  split_and!; [done | lia | lia |].
  intros Hall. rewrite sweep_loop_id by done.
  rewrite (filter_all _ _ Hall). f_equal. lia.
Qed.

Lemma filter_get (P : K * V → Prop) `{!∀ e, Decision (P e)} m (k : K) (v : V) :
  NoDup m.*1 →
  JSMap.get k (base.filter P m) = Some v ↔ JSMap.get k m = Some v ∧ P (k, v).
Proof.
  intros Hnd.
  rewrite !get_Some, list_elem_of_filter by (done || by apply filter_keys_NoDup).
  tauto.
Qed.

(** X12. On a collection with distinct keys, [filter] returns a collection
    holding exactly the entries [fn] accepts, in their order: a key is
    mapped to a value in the result exactly when it is in the receiver and
    [fn] accepts the entry.  The result has distinct keys, empty caches and
    at most the size of the receiver. *)
Theorem filter_spec (fn : V → K → Collection K V → bool) c :
  wf c →
  entries (filter fn c) = base.filter (λ e, fn e.2 e.1 c = true) (entries c) ∧
  (∀ k v, get k (filter fn c) = Some v ↔ get k c = Some v ∧ fn v k c = true) ∧
  wf (filter fn c) ∧ size (filter fn c) ≤ size c ∧
  _array (filter fn c) = None ∧ _keyArray (filter fn c) = None.
Proof.
  intros Hwf. pose proof (filter_entries fn c Hwf) as Hes.
  split_and!.
  - done.
  - intros k v. unfold get. rewrite Hes.
    by rewrite (filter_get (λ e, fn e.2 e.1 c = true)).
  - unfold wf, keys. rewrite Hes. by apply filter_keys_NoDup.
  - unfold size. rewrite Hes. apply length_filter.
  - apply uncached_filter.
  - apply uncached_filter.
Qed.

Lemma partition_loop (fn : V → K → Collection K V → bool) c es
    (r1 r2 : Collection K V) :
  fold_left (λ results e,
               if fn e.2 e.1 c then (set e.1 e.2 results.1, results.2)
               else (results.1, set e.1 e.2 results.2)) es (r1, r2)
  = (fold_left (λ results e,
                  if fn e.2 e.1 c then set e.1 e.2 results else results) es r1,
     fold_left (λ results e,
                  if negb (fn e.2 e.1 c) then set e.1 e.2 results else results)
               es r2).
Proof.
  revert r1 r2. induction es as [|e es IH]; intros r1 r2; simpl; [done|].
  destruct (fn e.2 e.1 c); simpl; apply IH.
Qed.

Lemma filter_fold_receiver (f : K * V → bool) (c : Collection K V) es r :
  entries (fold_left (λ results e, if f e then set e.1 e.2 results else results)
                     es r)
  = fold_left (λ m e, if f e then JSMap.set e.1 e.2 m else m) es (entries r).
Proof.
  revert r. induction es as [|e es IH]; intros r; simpl; [done|].
  rewrite IH. by destruct (f e).
Qed.

(** X13. On a collection with distinct keys, [partition] returns the
    entries [fn] accepts and the entries it rejects, each in insertion
    order: the first result is what [filter] returns, every entry is in
    exactly one of the two, and the sizes add up to the size of the
    receiver. *)
Theorem partition_spec (fn : V → K → Collection K V → bool) c :
  wf c →
  (partition fn c).1 = filter fn c ∧
  entries (partition fn c).1
  = base.filter (λ e, fn e.2 e.1 c = true) (entries c) ∧
  entries (partition fn c).2
  = base.filter (λ e, fn e.2 e.1 c = false) (entries c) ∧
  entries (partition fn c).1 ++ entries (partition fn c).2 ≡ₚ entries c ∧
  size (partition fn c).1 + size (partition fn c).2 = size c.
Proof.
  intros Hwf. unfold partition. rewrite partition_loop. cbn [fst snd].
  assert (entries (fold_left (λ results e,
                     if negb (fn e.2 e.1 c) then set e.1 e.2 results else results)
                   (entries c) (new None))
          = base.filter (λ e, fn e.2 e.1 c = false) (entries c)) as H2.
  { rewrite (filter_fold_receiver (λ e, negb (fn e.2 e.1 c)) c).
    rewrite (fold_filter_set (λ e, negb (fn e.2 e.1 c))) by done. simpl.
    apply list_filter_iff. intros e. by destruct (fn e.2 e.1 c). }
  pose proof (filter_entries fn c Hwf) as H1. unfold filter in H1.
  pose proof (filter_bool_perm (λ e : K * V, fn e.2 e.1 c) (entries c)) as Hperm.
  cbv beta in Hperm.
  rewrite H1, H2. split_and!; try done.
  unfold size. rewrite H1, H2, <-length_app. by apply Permutation_length.
Qed.

(** X14. On collections with distinct keys, [a.intersect(b)] holds the
    entries of [b] whose key is in [a], in the order of [b] and with the
    values of [b]; so [a.intersect(a)] has the entries of [a]. *)
Theorem intersect_spec (a b : Collection K V) :
  wf a → wf b →
  entries (intersect a b)
  = base.filter (λ e, e.1 ∈ keys a) (entries b) ∧
  (∀ k v, get k (intersect a b) = Some v ↔ has k a = true ∧ get k b = Some v) ∧
  entries (intersect a a) = entries a ∧
  wf (intersect a b).
Proof.
  intros Hwfa Hwfb.
  assert (∀ x y : Collection K V, wf y →
    entries (intersect x y) = base.filter (λ e, e.1 ∈ keys x) (entries y)) as Hes.
  { intros x y Hy. unfold intersect. rewrite filter_entries by done.
    apply list_filter_iff. intros [k v]. apply has_true. }
  split_and!.
  - by apply Hes.
  - intros k v. unfold get, has. rewrite Hes by done.
    rewrite (filter_get (λ e, e.1 ∈ keys a)) by done. simpl.
    rewrite has_true. unfold keys. tauto.
  - rewrite Hes by done. apply filter_all, Forall_forall.
    intros [k v] Hin. apply list_elem_of_fmap. by exists (k, v).
  - unfold wf, keys. rewrite Hes by done. by apply filter_keys_NoDup.
Qed.
End selecting.

Lemma sweep_spec_witness :
  let c : Collection nat Z := new (Some [(1, 1%Z); (2, 2%Z); (3, 3%Z)]) in
  let p : Z → nat → bool := λ v _, (1 <? v)%Z in
  (sweep (λ v k _, p v k) c).1 = 2 ∧
  entries (sweep (λ v k _, p v k) c).2 = [(1, 1%Z)].
Proof.
  intros c p. destruct (sweep_spec p c) as (H1 & H2 & _).
  - apply wf_new.
  - split; [exact H2 | exact H1].
Defined.

Lemma filter_spec_witness :
  let c : Collection nat Z := new (Some [(1, 1%Z); (2, 2%Z); (3, 3%Z)]) in
  let fn : Z → nat → Collection nat Z → bool := λ v _ _, (1 <? v)%Z in
  entries (filter fn c) = [(2, 2%Z); (3, 3%Z)].
Proof.
  intros c fn. refine (proj1 (filter_spec fn c _)). apply wf_new.
Defined.

Lemma partition_spec_witness :
  let c : Collection nat Z := new (Some [(1, 1%Z); (2, 2%Z); (3, 3%Z)]) in
  let fn : Z → nat → Collection nat Z → bool := λ v _ _, (1 <? v)%Z in
  (partition fn c).1 = filter fn c.
Proof.
  intros c fn. refine (proj1 (partition_spec fn c _)). apply wf_new.
Defined.

Lemma intersect_spec_witness :
  let a : Collection nat string := new (Some [(1, "a"); (2, "b"); (3, "c")]) in
  let b : Collection nat string := new (Some [(2, "x"); (3, "c"); (4, "d")]) in
  entries (intersect a b) = [(2, "x"); (3, "c")].
Proof.
  intros a b. refine (proj1 (intersect_spec a b _ _)); apply wf_new.
Defined.

(** ** [map], [mapValues], [concat] and [flatMap] *)

Section mapping.
Context {K V : Type} `{!EqDecision K, !EqDecision V}.
Implicit Types c : Collection K V.

Lemma mapM_lookup_seq {A B} (g : A → B) (pre l : list A) :
  mapM (λ i, e ← (pre ++ l) !! i; Some (g e)) (seq (length pre) (length l))
  = Some (g <$> l).
Proof.
  revert pre. induction l as [|x l IH]; intros pre; [done|].
  cbn [length seq mapM fmap list_fmap].
  rewrite list_lookup_middle by done. simpl.
  specialize (IH (pre ++ [x])).
  rewrite <-app_assoc, length_app, Nat.add_1_r in IH. simpl in IH.
  by rewrite IH.
Qed.

Lemma map_entries {R} (fn : V → K → Collection K V → R) c :
  map fn c = Some ((λ e, fn e.2 e.1 c) <$> entries c).
Proof. unfold map, size. apply (mapM_lookup_seq (λ e, fn e.2 e.1 c) []). Qed.

(** X15. [map] never runs past the end of the iterator: it returns one
    result for every entry, [fn] applied to the value and the key of the
    entry at the same position. *)
Theorem map_spec {R} (fn : V → K → Collection K V → R) c :
  map fn c = Some ((λ e, fn e.2 e.1 c) <$> entries c) ∧
  (∀ l, map fn c = Some l → length l = size c) ∧
  (∀ l i k v, map fn c = Some l → entries c !! i = Some (k, v) →
              l !! i = Some (fn v k c)).
Proof.
  rewrite map_entries. split_and!; [done| |].
  - intros l [= <-]. by rewrite length_fmap.
  - intros l i k v [= <-] Hi. by rewrite list_lookup_fmap, Hi.
Qed.

Lemma mapValues_loop {T} (g : K * V → T) (es : list (K * V))
    (r : Collection K T) :
  NoDup ((entries r).*1 ++ es.*1) →
  entries (fold_left (λ coll e, set e.1 (g e) coll) es r)
  = entries r ++ ((λ e, (e.1, g e)) <$> es).
Proof.
  revert r. induction es as [|e es IH]; intros r Hnd; simpl.
  - by rewrite app_nil_r.
  - rewrite IH; simpl.
    + rewrite set_fresh, <-app_assoc; [done|].
      apply NoDup_app in Hnd as (_ & Hd & _).
      intros Hk. apply (Hd _ Hk). by left.
    + rewrite set_fresh.
      * rewrite fmap_app, <-app_assoc. exact Hnd.
      * apply NoDup_app in Hnd as (_ & Hd & _).
        intros Hk. apply (Hd _ Hk). by left.
Qed.

(** X16. On a collection with distinct keys, [mapValues] returns a
    collection with the same keys in the same order, each mapped to [fn]
    of its value and key; the size is kept and the caches are empty. *)
Theorem mapValues_spec {T} (fn : V → K → Collection K V → T) c :
  wf c →
  entries (mapValues fn c) = (λ e, (e.1, fn e.2 e.1 c)) <$> entries c ∧
  keys (mapValues fn c) = keys c ∧
  size (mapValues fn c) = size c ∧
  (∀ k, get k (mapValues fn c) = (λ v, fn v k c) <$> get k c) ∧
  _array (mapValues fn c) = None ∧ _keyArray (mapValues fn c) = None.
Proof.
  intros Hwf.
  assert (entries (mapValues fn c) = (λ e, (e.1, fn e.2 e.1 c)) <$> entries c)
    as Hes.
  { unfold mapValues. by rewrite (mapValues_loop (λ e, fn e.2 e.1 c)). }
  split_and!.
  - done.
  - unfold keys. rewrite Hes, <-list_fmap_compose. done.
  - unfold size. by rewrite Hes, length_fmap.
  - intros k. unfold get. rewrite Hes. clear.
    induction (entries c) as [|[k0 v0] m IH]; simpl; [done|].
    destruct (decide (k = k0)) as [->|]; [done|exact IH].
  - unfold mapValues. generalize (entries c). intros es.
    assert (_array (new (K:=K) (V:=T) None) = None) as H0 by done. revert H0.
    generalize (new (K:=K) (V:=T) None).
    induction es as [|e es IH]; intros r Hr; simpl; [done|]. by apply IH.
  - unfold mapValues. generalize (entries c). intros es.
    assert (_keyArray (new (K:=K) (V:=T) None) = None) as H0 by done. revert H0.
    generalize (new (K:=K) (V:=T) None).
    induction es as [|e es IH]; intros r Hr; simpl; [done|]. by apply IH.
Qed.

Lemma get_fold_set (k : K) (es m : list (K * V)) :
  NoDup es.*1 →
  JSMap.get k (fold_left (λ m e, JSMap.set e.1 e.2 m) es m)
  = match JSMap.get k es with Some v => Some v | None => JSMap.get k m end.
Proof.
  revert m. induction es as [|[k0 v0] es IH]; intros m Hnd; simpl; [done|].
  apply NoDup_cons in Hnd as [Hk0 Hnd]. simpl in Hk0.
  rewrite IH, JSMap_get_set by done.
  destruct (decide (k = k0)) as [->|]; [|done].
  apply (get_None (V:=V)) in Hk0. by rewrite Hk0.
Qed.

Lemma fold_set_prefix (es m : list (K * V)) :
  m.*1 `prefix_of` (fold_left (λ m e, JSMap.set e.1 e.2 m) es m).*1.
Proof.
  revert m. induction es as [|e es IH]; intros m; simpl; [done|].
  etrans; [|apply IH]. rewrite set_keys.
  destruct (JSMap.has e.1 m); [done | by apply prefix_app_r].
Qed.

Lemma concat_loop_get (k : K) (cs : list (Collection K V)) (r : Collection K V) :
  Forall wf cs →
  get k (fold_left (λ newColl coll,
           fold_left (λ newColl e, set e.1 e.2 newColl) (entries coll) newColl)
           cs r)
  = last_write k (get k r) cs.
Proof.
  intros Hcs. revert r. induction Hcs as [|o cs Ho _ IH]; intros r; simpl; [done|].
  rewrite IH. unfold last_write. simpl. f_equal.
  unfold get. rewrite fold_set_entries. by apply get_fold_set.
Qed.

Lemma concat_loop_keys (cs : list (Collection K V)) (r : Collection K V) :
  let r' := fold_left (λ newColl coll,
              fold_left (λ newColl e, set e.1 e.2 newColl) (entries coll) newColl)
              cs r in
  keys r `prefix_of` keys r' ∧ (wf r → wf r').
Proof.
  revert r. induction cs as [|o cs IH]; intros r; simpl; [done|].
  destruct (IH (fold_left (λ newColl e, set e.1 e.2 newColl) (entries o) r))
    as [Hpre Hwf].
  unfold wf, keys in *. rewrite fold_set_entries in Hpre, Hwf. split.
  - etrans; [apply fold_set_prefix|exact Hpre].
  - intros Hr. by apply Hwf, fold_set_NoDup.
Qed.

(** X17. For collections with distinct keys, [c.concat(...cs)] maps a key
    to the value of the last collection among [c] and the arguments that
    has it; the keys of [c] come first, in their order; the result has
    distinct keys and empty caches. *)
Theorem concat_spec c (cs : list (Collection K V)) :
  wf c → Forall wf cs →
  (∀ k, get k (concat c cs) = last_write k (get k c) cs) ∧
  keys c `prefix_of` keys (concat c cs) ∧
  wf (concat c cs) ∧
  _array (concat c cs) = None ∧ _keyArray (concat c cs) = None.
Proof.
  intros Hwf Hcs.
  assert (entries (clone c) = entries c) as Hclone by (by apply clone_entries).
  destruct (concat_loop_keys cs (clone c)) as [Hpre Hwf'].
  split_and!.
  - intros k. unfold concat. rewrite concat_loop_get by done.
    unfold get. by rewrite Hclone.
  - unfold keys in *. by rewrite Hclone in Hpre.
  - apply Hwf'. unfold wf, keys. by rewrite Hclone.
  - apply uncached_concat.
  - apply uncached_concat.
Qed.

End mapping.

(** X18. [flatMap] never runs past the end of the iterator: it is
    [concat] on a new collection of the collections [fn] returns for the
    entries, in the order of the entries.  When these have distinct keys,
    a key is mapped to the value of the last of them that has it, and
    the result has distinct keys; on an empty receiver the result is
    empty. *)
Theorem flatMap_spec {K V T : Type} `{!EqDecision K, !EqDecision V, !EqDecision T}
    (fn : V → K → Collection K V → Collection K T) (c : Collection K V) :
  let produced := (λ e, fn e.2 e.1 c) <$> entries c in
  flatMap fn c = Some (concat (new None) produced) ∧
  (entries c = [] → flatMap fn c = Some (new None)) ∧
  (Forall wf produced →
   ∀ r, flatMap fn c = Some r →
        wf r ∧ ∀ k, get k r = last_write k None produced).
Proof.
  intros produced.
  assert (flatMap fn c = Some (concat (new None) produced)) as Hflat.
  { unfold flatMap. by rewrite map_entries. }
  split_and!; [done| |].
  - intros Hnil. rewrite Hflat. unfold produced. by rewrite Hnil.
  - intros Hall r. rewrite Hflat. intros [= <-].
    assert (entries (clone (new (K:=K) (V:=T) None)) = []) as Hclone by done.
    destruct (concat_loop_keys produced (clone (new (K:=K) (V:=T) None)))
      as [_ Hwf'].
    split.
    + apply Hwf'. constructor.
    + intros k. unfold concat. by rewrite concat_loop_get.
Qed.

Lemma mapValues_spec_witness :
  let c : Collection nat Z := new (Some [(1, 1%Z); (2, 2%Z)]) in
  let fn : Z → nat → Collection nat Z → Z := λ v _ _, (v * 10)%Z in
  entries (mapValues fn c) = [(1, 10%Z); (2, 20%Z)].
Proof.
  intros c fn. refine (proj1 (mapValues_spec fn c _)). apply wf_new.
Defined.

Lemma concat_spec_witness :
  let c : Collection nat string := new (Some [(1, "a"); (2, "b")]) in
  let o : Collection nat string := new (Some [(2, "x"); (3, "y")]) in
  get 2 (concat c [o]) = Some "x" ∧ keys c `prefix_of` keys (concat c [o]).
Proof.
  intros c o. destruct (concat_spec c [o]) as (Hget & Hpre & _).
  - apply wf_new.
  - constructor; [apply wf_new | constructor].
  - split; [exact (Hget 2) | exact Hpre].
Defined.

(** ** [sort] with any comparator, [sorted], [equals] and [difference] *)

Section ordering.
Context {K V : Type} `{!EqDecision K, !EqDecision V, !JSGreater V}.
Implicit Types c : Collection K V.


Lemma sort_entries compareFunction c :
  wf c →
  entries (sort compareFunction c)
  = Array_sort (λ a b, default (λ x y _ _, defaultCompare x y) compareFunction
                         a.2 b.2 a.1 b.1) (entries c).
Proof. intros Hwf. unfold sort. by apply sort_by_entries. Qed.


(** X20. On a collection with distinct keys, [sorted(compareFunction)]
    returns a collection in the state [sort(compareFunction)] would put
    the receiver in; in particular its entries are a rearrangement of the
    receiver's. *)
Theorem sorted_spec compareFunction c :
  wf c →
  sorted compareFunction c = sort compareFunction c ∧
  entries (sorted compareFunction c) ≡ₚ entries c.
Proof.
  intros Hwf.
  assert (sorted compareFunction c = sort compareFunction c) as Heq.
  { unfold sorted, sort, sort_by, new. cbn [default from_option id entries].
    by rewrite from_entries_id. }
  split; [done|]. rewrite Heq, sort_entries by done. apply Array_sort_perm.
Qed.

Lemma same_entries_Permutation (a b : Collection K V) :
  wf a → wf b → same_entries a b ↔ entries a ≡ₚ entries b.
Proof.
  intros Hwfa Hwfb. split.
  - intros [Hsize Hall]. apply submseteq_length_Permutation.
    + apply NoDup_submseteq.
      * by apply (NoDup_fmap_1 fst).
      * intros [k v] Hin. by apply get_entry, Hall.
    + unfold size in Hsize. lia.
  - intros Hperm. split.
    + unfold size. by rewrite Hperm.
    + intros k v Hin. apply get_entry; [done|]. by rewrite <-Hperm.
Qed.

(** X21. For two distinct collections with distinct keys, [a.equals(b)]
    is [true] exactly when the entries of [b] are a rearrangement of the
    entries of [a]; so [a.equals(b)] and [b.equals(a)] agree. *)
Theorem equals_symmetric (h : gmap nat (Collection K V)) (a b : nat)
    (ca cb : Collection K V) :
  h !! a = Some ca → h !! b = Some cb → wf ca → wf cb →
  (Heap.equals h a (Some b) = Some true ↔ entries ca ≡ₚ entries cb) ∧
  Heap.equals h a (Some b) = Heap.equals h b (Some a).
Proof.
  intros Ha Hb Hwfa Hwfb.
  destruct (equals_result h a b ca cb Ha Hb Hwfa) as (r & Hr & Hiff).
  destruct (equals_result h b a cb ca Hb Ha Hwfb) as (r' & Hr' & Hiff').
  rewrite same_entries_Permutation in Hiff, Hiff' by done.
  rewrite Hr, Hr'. split.
  - rewrite <-Hiff. split; [by intros [= ->] | by intros ->].
  - f_equal. destruct r, r'; try done.
    + assert (entries cb ≡ₚ entries ca) as H by (symmetry; by apply Hiff).
      by apply Hiff' in H.
    + assert (entries ca ≡ₚ entries cb) as H by (symmetry; by apply Hiff').
      by apply Hiff in H.
Qed.

Lemma difference_entries (a b : Collection K V) :
  wf a → wf b →
  entries (difference a b)
  = base.filter (λ e, e.1 ∉ keys a) (entries b)
    ++ base.filter (λ e, e.1 ∉ keys b) (entries a).
Proof.
  intros Hwfa Hwfb. unfold difference.
  assert (∀ x y : Collection K V, wf y →
    entries (filter (λ _ k _, negb (has k x)) y)
    = base.filter (λ e, e.1 ∉ keys x) (entries y)) as Hf.
  { intros x y Hy. rewrite filter_entries by done. apply list_filter_iff.
    intros [k v]. simpl. rewrite negb_true_iff. apply has_false. }
  rewrite concat_one.
  - by rewrite !Hf.
  - unfold wf, keys. rewrite Hf by done. by apply filter_keys_NoDup.
  - rewrite !Hf, fmap_app by done. apply NoDup_app. split_and!.
    + by apply filter_keys_NoDup.
    + intros k ([k1 v1] & -> & [_ Hin]%list_elem_of_filter)%list_elem_of_fmap.
      intros ([k2 v2] & Hk & [Hnot _]%list_elem_of_filter)%list_elem_of_fmap.
      simpl in *. subst k2. apply Hnot, list_elem_of_fmap. by exists (k1, v1).
    + by apply filter_keys_NoDup.
Qed.

(** X22. For collections with distinct keys, [a.difference(b)] and
    [b.difference(a)] hold the same entries (in the opposite order of the
    two halves), so [equals] finds them equal; a key is in the difference
    exactly when it is in one of the two collections and not in the other;
    and [a.difference(a)] is empty. *)
Theorem difference_symmetric (a b : Collection K V) :
  wf a → wf b →
  entries (difference a b) ≡ₚ entries (difference b a) ∧
  equals_entries (difference a b) (difference b a) = true ∧
  (∀ k, has k (difference a b) = xorb (has k a) (has k b)) ∧
  entries (difference a a) = [].
Proof.
  intros Hwfa Hwfb.
  pose proof (difference_entries a b Hwfa Hwfb) as Hab.
  pose proof (difference_entries b a Hwfb Hwfa) as Hba.
  assert (entries (difference a b) ≡ₚ entries (difference b a)) as Hperm.
  { rewrite Hab, Hba. apply Permutation_app_comm. }
  assert (wf (difference b a)) as Hwfba.
  { unfold wf, keys. rewrite Hba, fmap_app. apply NoDup_app. split_and!.
    - by apply filter_keys_NoDup.
    - intros k ([k1 v1] & -> & [_ Hin]%list_elem_of_filter)%list_elem_of_fmap.
      intros ([k2 v2] & Hk & [Hnot _]%list_elem_of_filter)%list_elem_of_fmap.
      simpl in *. subst k2. apply Hnot, list_elem_of_fmap. by exists (k1, v1).
    - by apply filter_keys_NoDup. }
  assert (wf (difference a b)) as Hwfab.
  { unfold wf, keys. rewrite Hperm. exact Hwfba. }
  split_and!.
  - done.
  - apply equals_entries_true. by apply same_entries_Permutation.
  - intros k.
    assert (k ∈ (entries (difference a b)).*1 ↔
            (k ∈ (entries b).*1 ∧ k ∉ (entries a).*1) ∨
            (k ∈ (entries a).*1 ∧ k ∉ (entries b).*1)) as Hmem.
    { rewrite Hab, fmap_app, elem_of_app. split.
      - intros [H|H];
          apply list_elem_of_fmap in H as ([k1 v1] & -> & [Hn Hin]%list_elem_of_filter);
          [left|right];
          (split; [apply list_elem_of_fmap; by exists (k1, v1) | done]).
      - intros [[Hin Hn]|[Hin Hn]]; [left|right];
          apply list_elem_of_fmap in Hin as ([k1 v1] & -> & Hin);
          apply list_elem_of_fmap; exists (k1, v1); (split; [done|]);
          by apply list_elem_of_filter. }
    unfold has.
    destruct (JSMap.has k (entries a)) eqn:Ha, (JSMap.has k (entries b)) eqn:Hb;
      cbn [xorb negb].
    + apply has_true in Ha. apply has_true in Hb.
      apply has_false. rewrite Hmem. tauto.
    + apply has_true in Ha. apply has_false in Hb.
      apply has_true. rewrite Hmem. tauto.
    + apply has_false in Ha. apply has_true in Hb.
      apply has_true. rewrite Hmem. tauto.
    + apply has_false in Ha. apply has_false in Hb.
      apply has_false. rewrite Hmem. tauto.
  - rewrite (difference_entries a a) by done.
    assert (base.filter (λ e : K * V, e.1 ∉ keys a) (entries a) = []) as ->; [|done].
    apply filter_none, Forall_forall. intros e Hin Hn.
    apply Hn, list_elem_of_fmap. by exists e.
Qed.
End ordering.


Lemma sorted_spec_witness :
  let c : Collection nat Z := new (Some [(1, 3%Z); (2, 1%Z); (3, 2%Z)]) in
  sorted None c = sort None c.
Proof.
  intros c. refine (proj1 (sorted_spec None c _)). apply wf_new.
Defined.

Lemma equals_symmetric_witness :
  let ca : Collection nat string := new (Some [(1, "a"); (2, "b")]) in
  let cb : Collection nat string := new (Some [(2, "b"); (1, "a")]) in
  let h : gmap nat (Collection nat string) := <[1 := cb]> (<[0 := ca]> ∅) in
  Heap.equals h 0 (Some 1) = Heap.equals h 1 (Some 0).
Proof.
  intros ca cb h.
  refine (proj2 (equals_symmetric h 0 1 ca cb _ _ _ _)).
  - reflexivity.
  - reflexivity.
  - apply wf_new.
  - apply wf_new.
Defined.

Lemma difference_symmetric_witness :
  let a : Collection nat string := new (Some [(1, "a"); (2, "b"); (3, "c")]) in
  let b : Collection nat string := new (Some [(2, "x"); (3, "c"); (4, "d")]) in
  entries (difference a b) ≡ₚ entries (difference b a) ∧
  equals_entries (difference a b) (difference b a) = true.
Proof.
  intros a b. destruct (difference_symmetric a b) as (H1 & H2 & _).
  - apply wf_new.
  - apply wf_new.
  - split; [exact H1 | exact H2].
Defined.

(** ** More on [random] and on the reachable states *)

Section random_more.
Context {K V : Type} `{!EqDecision K, !EqDecision V, !JSGreater V}.
Implicit Types c : Collection K V.



Lemma sample_amount_all {A} (amount : Z) (rnd : nat → Q) (arr : list A) :
  (∀ i, (0 <= rnd i)%Q ∧ (rnd i < 1)%Q) →
  (Z.of_nat (length arr) ≤ amount)%Z →
  ∃ vs, sample_amount amount rnd arr = Some <$> vs ∧ vs ≡ₚ arr.
Proof.
  intros Hrnd Hn. unfold sample_amount.
  case_bool_decide as Hlen; simpl.
  - exists []. split; [done|]. by apply nil_length_inv in Hlen as ->.
  - case_bool_decide as Hz; simpl; [lia|].
    rewrite Z.min_r, Nat2Z.id by lia.
    destruct (sample_spec rnd Hrnd (length arr) 0 arr) as (vs & rest & -> & Hl & Hp);
      [done|].
    exists vs. split; [done|].
    assert (rest = []) as ->.
    { apply Permutation_length in Hp. rewrite length_app in Hp.
      apply nil_length_inv. lia. }
    by rewrite app_nil_r in Hp.
Qed.

Lemma sample_amount_nonpositive {A} (amount : Z) (rnd : nat → Q) (arr : list A) :
  (amount ≤ 0)%Z → sample_amount amount rnd arr = [].
Proof.
  intros Hn. unfold sample_amount.
  destruct (bool_decide (length arr = 0) || bool_decide (amount = 0%Z)); [done|].
  by rewrite Z2Nat.nonpos by lia.
Qed.

(** X24. With coherent caches, [random(n)] for [n] at least the size
    returns all the values of the collection, each once, in some order,
    and [random(n)] for [n <= 0] returns the empty list; [randomKey(n)]
    does the same for the keys. *)
Theorem random_all c (rnd : nat → Q) :
  cache_ok c → (∀ i, (0 <= rnd i)%Q ∧ (rnd i < 1)%Q) →
  (∀ n : Z, (Z.of_nat (size c) ≤ n)%Z →
     (∃ vs, (random (Some n) rnd c).1 = Many (Some <$> vs) ∧ vs ≡ₚ values c) ∧
     (∃ ks, (randomKey (Some n) rnd c).1 = Many (Some <$> ks) ∧ ks ≡ₚ keys c)) ∧
  (∀ n : Z, (n ≤ 0)%Z →
     (random (Some n) rnd c).1 = Many [] ∧
     (randomKey (Some n) rnd c).1 = Many []).
Proof.
  intros Hok Hrnd. split.
  - intros n Hn. rewrite random_many, randomKey_many.
    rewrite (array_fresh c Hok), (keyArray_fresh c Hok). split.
    + destruct (sample_amount_all n rnd (values c) Hrnd) as (vs & -> & Hp).
      { unfold values, size in *. by rewrite length_fmap. }
      by exists vs.
    + destruct (sample_amount_all n rnd (keys c) Hrnd) as (ks & -> & Hp).
      { unfold keys, size in *. by rewrite length_fmap. }
      by exists ks.
  - intros n Hn. rewrite random_many, randomKey_many.
    by rewrite !sample_amount_nonpositive.
Qed.

(** X25. Every collection reached from the constructor by any sequence
    of [set], [delete], [clear], [sweep], [sort] and reads has pairwise
    distinct keys; so a lookup finds exactly the entries, and [has] tells
    whether a key occurs, which is when [get] finds a value. *)
Theorem keys_unique (es : option (list (K * V))) (ops : list (Op K V)) :
  let c := run ops (new es) in
  NoDup (keys c) ∧
  (∀ k v, get k c = Some v ↔ (k, v) ∈ entries c) ∧
  (∀ k, has k c = true ↔ k ∈ keys c) ∧
  (∀ k, has k c = true ↔ is_Some (get k c)).
Proof.
  intros c. assert (wf c) as Hwf by apply reachable_wf.
  split_and!.
  - exact Hwf.
  - intros k v. by apply get_entry.
  - intros k. apply has_true.
  - intros k. unfold has, get. rewrite JSMap_has_get.
    by rewrite bool_decide_eq_true.
Qed.
End random_more.


Lemma random_all_witness :
  let c : Collection nat string := new (Some [(1, "a"); (2, "b"); (3, "c")]) in
  let rnd : nat → Q := λ i, (1 # Pos.of_nat (i + 2))%Q in
  (∃ vs, (random (Some 5%Z) rnd c).1 = Many (Some <$> vs) ∧ vs ≡ₚ values c) ∧
  (random (Some (-1)%Z) rnd c).1 = Many [].
Proof.
  intros c rnd. destruct (random_all c rnd) as [Hall Hnone].
  - apply cache_ok_new.
  - intros i. unfold rnd, Qle, Qlt. simpl. lia.
  - split.
    + refine (proj1 (Hall 5%Z _)). vm_compute. discriminate.
    + refine (proj1 (Hnone (-1)%Z _)). lia.
Defined.
